(** * VideoSplit web client: session gateway and upload queue

    A shallow embedding of the client-side core of videosplit-api:
    - the credential store and the fetch wrapper [apiFetch] (token
      refresh on 401), from the shared auth and API layer in
      [src/static/auth.js];
    - the multi-file queue, the single-file path and [processQueue],
      from the upload page's script in [src/static/admin.js].

    JavaScript runs one task at a time and an [async] function gives up
    control only at an [await]; the embedding therefore executes each
    stretch of code between two suspension points as one atomic step and
    lets the environment choose which pending promise settles next. *)

From Stdlib Require Import ZArith Ascii.
From stdpp Require Import base strings list gmap sorting.

Local Open Scope Z_scope.
Local Open Scope string_scope.

(** ** JavaScript values that cross the model *)

(** A parsed JSON body. Property reads on [null] raise a TypeError; every
    other value is seen through its string-valued fields (a missing field
    reads as [undefined]). *)
Inductive json :=
| JNull
| JVal (fields : gmap string string).

(** [localStorage.getItem] gives [null] or a string; the empty string is
    falsy like [null]. *)
Definition truthy (v : option string) : bool :=
  match v with
  | Some s => negb (String.eqb s "")
  | None => false
  end.

(** [String(v)] as applied by [localStorage.setItem] to its value. *)
Definition to_js_string (v : option string) : string :=
  match v with
  | Some s => s
  | None => "undefined"
  end.

(** ** Credential store (auth.js, token management) *)

Module CredentialStore.

Definition getToken (ls : gmap string string) : option string :=
  ls !! "vs_access_token".

Definition setTokens (accessToken refreshToken : string)
    (ls : gmap string string) : gmap string string :=
  <["vs_refresh_token" := refreshToken]> (<["vs_access_token" := accessToken]> ls).

Definition getRefreshToken (ls : gmap string string) : option string :=
  ls !! "vs_refresh_token".

Definition clearTokens (ls : gmap string string) : gmap string string :=
  delete "vs_user" (delete "vs_refresh_token" (delete "vs_access_token" ls)).

End CredentialStore.

(** ** Session gateway (auth.js, fetch wrapper) *)

Module Gateway.
Import CredentialStore.

(** What [fetch] resolves to. [body = None] is a body that is not JSON:
    [res.json()] rejects on it. *)
Record response := Response { status : Z; body : option json }.

(** [res.ok] *)
Definition ok (r : response) : bool :=
  ((200 <=? status r) && (status r <=? 299))%Z.

(** A settled [fetch] promise: rejected (no response at all) or
    fulfilled. *)
Inductive reply :=
| NetworkError
| Resp (r : response).

(** The [options] argument, as far as [apiFetch] looks at it. *)
Record options := Options {
  opt_headers : gmap string string;
  opt_body_is_FormData : bool
}.

(** Observable actions, in program order. *)
Inductive action :=
| Request (tid : nat) (path : string) (headers : gmap string string)
| RefreshCall (tid : nat) (refresh_token : option string)
| Release (waiter : nat) (access_token : string)
| Redirect (tid : nat).

(** Where one call of [apiFetch] is suspended, with its live locals. *)
Inductive pc :=
| AwaitFirst (headers : gmap string string)
| AwaitRefresh (res : response) (headers : gmap string string)
| AwaitRefreshJson (res : response) (headers : gmap string string) (rr : response)
| AwaitRetry (headers : gmap string string)
| Returned (res : response)
| Thrown.

Record task := Task { t_path : string; t_options : options; t_pc : pc }.

(** The module-level state of the API layer plus the calls in progress.
    [_refreshQueue] holds the continuations of waiting callers, named
    here by the call they would resume. *)
Record state := State {
  storage : gmap string string;
  _refreshing : bool;
  _refreshQueue : list nat;
  tasks : list task;
  log : list action
}.

Definition init (ls : gmap string string) : state :=
  State ls false [] [] [].

Definition set_pc (tid : nat) (p : pc) (s : state) : state :=
  State (storage s) (_refreshing s) (_refreshQueue s)
        (alter (fun t => Task (t_path t) (t_options t) p) tid (tasks s))
        (log s).

Definition emit (a : action) (s : state) : state :=
  State (storage s) (_refreshing s) (_refreshQueue s) (tasks s) (log s ++ [a]).

Definition set_storage (ls : gmap string string) (s : state) : state :=
  State ls (_refreshing s) (_refreshQueue s) (tasks s) (log s).

Definition set_refreshing (b : bool) (s : state) : state :=
  State (storage s) b (_refreshQueue s) (tasks s) (log s).

(** The [finally] block of the refresh. *)
Definition finally_refresh (s : state) : state :=
  State (storage s) false [] (tasks s) (log s).

(** Entry of [apiFetch] up to its first [await]. *)
Definition initial_headers (o : options) (ls : gmap string string)
    : gmap string string :=
  let headers := opt_headers o ∪ {["Content-Type" := "application/json"]} in
  let headers :=
    match getToken ls with
    | Some token =>
        if truthy (Some token)
        then <["Authorization" := "Bearer " ++ token]> headers
        else headers
    | None => headers
    end in
  if opt_body_is_FormData o then delete "Content-Type" headers else headers.

Definition call (path : string) (o : options) (s : state) : state :=
  let tid := length (tasks s) in
  let headers := initial_headers o (storage s) in
  emit (Request tid path headers)
    (State (storage s) (_refreshing s) (_refreshQueue s)
           (tasks s ++ [Task path o (AwaitFirst headers)]) (log s)).

(** "Retry with new token": the tail of the 401 branch. *)
Definition retry (tid : nat) (t : task) (res : response)
    (headers : gmap string string) (s : state) : state :=
  match getToken (storage s) with
  | Some newToken =>
      if truthy (Some newToken) then
        let headers := <["Authorization" := "Bearer " ++ newToken]> headers in
        set_pc tid (AwaitRetry headers) (emit (Request tid (t_path t) headers) s)
      else set_pc tid (Returned res) s
  | None => set_pc tid (Returned res) s
  end.

(** The first [fetch] settled. *)
Definition after_first (tid : nat) (t : task) (headers : gmap string string)
    (r : reply) (s : state) : state :=
  match r with
  | NetworkError => set_pc tid Thrown s
  | Resp res =>
      if (status res =? 401)%Z && truthy (getRefreshToken (storage s)) then
        if negb (_refreshing s) then
          set_pc tid (AwaitRefresh res headers)
            (emit (RefreshCall tid (getRefreshToken (storage s)))
               (set_refreshing true s))
        else retry tid t res headers s
      else set_pc tid (Returned res) s
  end.

(** The refresh [fetch] settled. *)
Definition after_refresh (tid : nat) (t : task) (res : response)
    (headers : gmap string string) (r : reply) (s : state) : state :=
  match r with
  | NetworkError => set_pc tid Thrown (finally_refresh s)
  | Resp rr =>
      if ok rr then set_pc tid (AwaitRefreshJson res headers rr) s
      else
        let s := set_storage (clearTokens (storage s)) s in
        let s := emit (Redirect tid) s in
        retry tid t res headers (finally_refresh s)
  end.

(** [rr.json()] settled. *)
Definition after_refresh_json (tid : nat) (t : task) (res : response)
    (headers : gmap string string) (rr : response) (s : state) : state :=
  match body rr with
  | None | Some JNull => set_pc tid Thrown (finally_refresh s)
  | Some (JVal data) =>
      let access_token := to_js_string (data !! "access_token") in
      let s := set_storage
                 (setTokens access_token
                    (to_js_string (data !! "refresh_token")) (storage s)) s in
      let s := foldl (fun s fn => emit (Release fn access_token) s)
                     s (_refreshQueue s) in
      retry tid t res headers (finally_refresh s)
  end.

(** What the environment can do: start a call, settle the [fetch] a
    call is waiting on, or complete the body read a call is waiting on.
    An event that matches no suspended call changes nothing. *)
Inductive event :=
| Call (path : string) (o : options)
| Settle (tid : nat) (r : reply)
| Wake (tid : nat).

Definition step (s : state) (e : event) : state :=
  match e with
  | Call path o => call path o s
  | Settle tid r =>
      match tasks s !! tid with
      | Some t =>
          match t_pc t with
          | AwaitFirst headers => after_first tid t headers r s
          | AwaitRefresh res headers => after_refresh tid t res headers r s
          | AwaitRetry _ =>
              match r with
              | NetworkError => set_pc tid Thrown s
              | Resp res => set_pc tid (Returned res) s
              end
          | _ => s
          end
      | None => s
      end
  | Wake tid =>
      match tasks s !! tid with
      | Some t =>
          match t_pc t with
          | AwaitRefreshJson res headers rr =>
              after_refresh_json tid t res headers rr s
          | _ => s
          end
      | None => s
      end
  end.

Definition run (s : state) (evs : list event) : state := foldl step s evs.

Definition pc_of (tid : nat) (s : state) : option pc :=
  t_pc <$> tasks s !! tid.

End Gateway.

(** ** Observations on the gateway *)

Module GatewayObs.
Import Gateway.

Definition is_refresh_of (tid : nat) (a : action) : bool :=
  match a with RefreshCall t _ => Nat.eqb t tid | _ => false end.

Definition is_request_of (tid : nat) (a : action) : bool :=
  match a with Request t _ _ => Nat.eqb t tid | _ => false end.

Definition count (p : action -> bool) (l : list action) : nat :=
  length (List.filter p l).

(** Refresh calls, and requests, that call [tid] has issued so far. *)
Definition refresh_calls (tid : nat) (s : state) : nat :=
  count (is_refresh_of tid) (log s).

Definition requests (tid : nat) (s : state) : nat :=
  count (is_request_of tid) (log s).

(** What one call has done so far: where it is, how many refresh calls
    and how many requests it has issued. *)
Definition view (tid : nat) (s : state) : option pc * nat * nat :=
  (pc_of tid s, refresh_calls tid s, requests tid s).

(** The control-flow graph of one call of [apiFetch], with what each
    edge issues. No edge leaves [Returned] or [Thrown], and the only
    edge that issues a refresh leaves [AwaitFirst]. *)
Definition advance (v v' : option pc * nat * nat) : Prop :=
  let '(p, r, q) := v in
  let '(p', r', q') := v' in
  match p, p' with
  | None, Some (AwaitFirst _) => r' = r ∧ q' = S q
  | Some (AwaitFirst _), Some (AwaitRefresh _ _) => r' = S r ∧ q' = q
  | Some (AwaitRefresh _ _), Some (AwaitRefreshJson _ _ _) => r' = r ∧ q' = q
  | Some (AwaitFirst _ | AwaitRefresh _ _ | AwaitRefreshJson _ _ _),
    Some (AwaitRetry _) => r' = r ∧ q' = S q
  | Some (AwaitFirst _ | AwaitRefresh _ _ | AwaitRefreshJson _ _ _ | AwaitRetry _),
    Some (Returned _ | Thrown) => r' = r ∧ q' = q
  | _, _ => False
  end.

(** The call an event resumes, if any. *)
Definition addressed (e : event) (s : state) : option nat :=
  match e with
  | Call _ _ => Some (length (tasks s))
  | Settle tid _ =>
      match pc_of tid s with
      | Some (AwaitFirst _ | AwaitRefresh _ _ | AwaitRetry _) => Some tid
      | _ => None
      end
  | Wake tid =>
      match pc_of tid s with
      | Some (AwaitRefreshJson _ _ _) => Some tid
      | _ => None
      end
  end.

(** What a call may have issued at each point of its control flow. *)
Definition budget (v : option pc * nat * nat) : Prop :=
  let '(p, nref, nreq) := v in
  match p with
  | None => nref = 0%nat ∧ nreq = 0%nat
  | Some (AwaitFirst _) => nref = 0%nat ∧ nreq = 1%nat
  | Some (AwaitRefresh _ _) | Some (AwaitRefreshJson _ _ _) =>
      nref = 1%nat ∧ nreq = 1%nat
  | Some (AwaitRetry _) => (nref ≤ 1)%nat ∧ nreq = 2%nat
  | Some (Returned _) | Some Thrown => (nref ≤ 1)%nat ∧ (nreq ≤ 2)%nat
  end.

(** Steps still ahead of a call, at most. *)
Definition rank (p : option pc) : nat :=
  match p with
  | None => 5
  | Some (AwaitFirst _) => 4
  | Some (AwaitRefresh _ _) => 3
  | Some (AwaitRefreshJson _ _ _) => 2
  | Some (AwaitRetry _) => 1
  | Some (Returned _ | Thrown) => 0
  end.

(** A call holds the refresh while it waits for the refresh response
    or reads its body. *)
Definition is_leader (t : task) : bool :=
  match t_pc t with
  | AwaitRefresh _ _ | AwaitRefreshJson _ _ _ => true
  | _ => false
  end.

Definition leaders (s : state) : nat :=
  length (List.filter is_leader (tasks s)).

(** The flag [_refreshing] is up exactly while one call holds the
    refresh. *)
Definition single_flight (s : state) : Prop :=
  leaders s = if _refreshing s then 1%nat else 0%nat.

(** The log with each request reduced to its bearer credential. *)
Inductive brief :=
| BRequest (tid : nat) (authorization : option string)
| BRefresh (tid : nat) (refresh_token : option string)
| BRelease (waiter : nat)
| BRedirect (tid : nat).

Definition brief_of (a : action) : brief :=
  match a with
  | Request tid _ headers => BRequest tid (headers !! "Authorization")
  | RefreshCall tid rt => BRefresh tid rt
  | Release w _ => BRelease w
  | Redirect tid => BRedirect tid
  end.

End GatewayObs.

(** ** Upload queue and single-file selection (admin.js) *)

Module UploadQueue.

(** A [File]: the two properties the client reads. *)
Record file := File { file_name : string; file_size : Z }.

Inductive lifecycle := Queued | Uploading | Done | Failed.

(** A queue entry [{ id, file, status }]; [result] is added on success. *)
Record item := Item {
  id : string;
  item_file : file;
  item_status : lifecycle;
  result : option json
}.

Inductive toast :=
| UnsupportedFormat (name : string)
| Exceeds500MB (name : string)
| MaxFilesPerBatch (maxFiles : Z).

Inductive section_name := s_upload | s_processing | s_results | s_error.

(** The globals of the upload script and the part of the page they
    drive. *)
Record client := Client {
  fileQueue : list item;
  selectedFile : option file;
  currentJobId : option string;
  draws : nat;
  toasts : list toast;
  shown : section_name;
  errorMessage : string;
  displayed : option json
}.

Definition initial_client : client :=
  Client [] None None 0 [] s_upload "" None.

Definition with_queue (q : list item) (c : client) : client :=
  Client q (selectedFile c) (currentJobId c) (draws c) (toasts c)
         (shown c) (errorMessage c) (displayed c).

Definition showToast (t : toast) (c : client) : client :=
  Client (fileQueue c) (selectedFile c) (currentJobId c) (draws c)
         (toasts c ++ [t]) (shown c) (errorMessage c) (displayed c).

(** [showError(message)]: [textContent] takes [undefined] as the empty
    string. *)
Definition showError (message : option string) (c : client) : client :=
  Client (fileQueue c) (selectedFile c) (currentJobId c) (draws c)
         (toasts c) s_error (default "" message) (displayed c).

Definition showSection (sec : section_name) (c : client) : client :=
  Client (fileQueue c) (selectedFile c) (currentJobId c) (draws c)
         (toasts c) sec (errorMessage c) (displayed c).

(** [currentJobId = data.job_id; displayResults(data)] *)
Definition show_results (job_id : option string) (data : json) (c : client)
    : client :=
  Client (fileQueue c) (selectedFile c) job_id (draws c)
         (toasts c) s_results (errorMessage c) (Some data).

(** [s.split(sep)] for a one-character separator. *)
Fixpoint split_on (sep : Ascii.ascii) (cur s : string) : list string :=
  match s with
  | EmptyString => [cur]
  | String c rest =>
      if Ascii.eqb c sep then cur :: split_on sep "" rest
      else split_on sep (cur ++ String c "") rest
  end.

Definition split (sep : Ascii.ascii) (s : string) : list string :=
  split_on sep "" s.

(** [parts.pop() || ''] *)
Definition pop_or_empty (parts : list string) : string :=
  match last parts with
  | Some x => if truthy (Some x) then x else ""
  | None => ""
  end.

Definition allowed : list string := [".mp4"; ".mov"; ".avi"; ".mkv"].

Definition includes (l : list string) (x : string) : bool :=
  existsb (String.eqb x) l.

(** [500 * 1024 * 1024] *)
Definition maxSize : Z := 500 * 1024 * 1024.

(** Plan → max files per batch *)
Definition MAX_FILES_BY_PLAN : gmap string Z :=
  {[ "free" := 1; "starter" := 5; "pro" := 10; "enterprise" := 20 ]}.

(** [files.slice(0, e)] *)
Definition slice0 {A} (l : list A) (e : Z) : list A :=
  let len := Z.of_nat (length l) in
  let k := if (e <? 0)%Z then Z.max (len + e) 0 else Z.min e len in
  take (Z.to_nat k) l.

Section Client.

(** [String.prototype.toLowerCase], and the successive values of
    [Math.random().toString(36).slice(2)]. *)
Variable toLowerCase : string -> string.
Variable random_id : nat -> string.

(** [(file.name.split('.').pop() || '').toLowerCase()] *)
Definition extension (f : file) : string :=
  toLowerCase (pop_or_empty (split "."%char (file_name f))).

(** ['.' + (file.name.split('.').pop() || '').toLowerCase()] *)
Definition ext_of (f : file) : string := "." ++ extension f.

Definition addToQueue (f : file) (c : client) : client :=
  let ext := ext_of f in
  if negb (includes allowed ext) then
    showToast (UnsupportedFormat (file_name f)) c
  else if (file_size f >? 500 * 1024 * 1024)%Z then
    showToast (Exceeds500MB (file_name f)) c
  else
    Client (fileQueue c ++ [Item (random_id (draws c)) f Queued None])
           (selectedFile c) (currentJobId c) (S (draws c)) (toasts c)
           (shown c) (errorMessage c) (displayed c).

(** The files that pass both checks of [addToQueue]. *)
Definition accepts (f : file) : bool :=
  includes allowed (ext_of f) && negb (file_size f >? 500 * 1024 * 1024)%Z.

(** The entry [addToQueue] pushes for [f]. *)
Definition push (f : file) (c : client) : client :=
  Client (fileQueue c ++ [Item (random_id (draws c)) f Queued None])
         (selectedFile c) (currentJobId c) (S (draws c)) (toasts c)
         (shown c) (errorMessage c) (displayed c).

Definition handleFileSelect (f : file) (c : client) : client :=
  let ext := ext_of f in
  if negb (includes allowed ext) then
    showError (Some "Please select a valid video file (MP4, MOV, AVI, or MKV).") c
  else if (file_size f >? maxSize)%Z then
    showError (Some "File size exceeds 500MB limit. Please select a smaller file.") c
  else
    Client (fileQueue c) (Some f) (currentJobId c) (draws c) (toasts c)
           (shown c) (errorMessage c) (displayed c).

(** The state [handleFileSelect] leaves when it stores [f]. *)
Definition select (f : file) (c : client) : client :=
  Client (fileQueue c) (Some f) (currentJobId c) (draws c) (toasts c)
         (shown c) (errorMessage c) (displayed c).

(** [getCachedUser()?.plan_tier?.toLowerCase() || 'free'], from the
    cached profile's [plan_tier] ([None] when there is no profile or
    no such field). *)
Definition plan_of (plan_tier : option string) : string :=
  match plan_tier with
  | Some p => if truthy (Some (toLowerCase p)) then toLowerCase p else "free"
  | None => "free"
  end.

(** [MAX_FILES_BY_PLAN[plan] || 1], on the table's own keys. *)
Definition maxFiles_of (plan : string) : Z :=
  match MAX_FILES_BY_PLAN !! plan with
  | Some n => if (n =? 0)%Z then 1 else n
  | None => 1
  end.

(** The ['change'] listener of the file input, from [maxFiles] on.
    With no file at all, [handleFileSelect(undefined)] raises before
    it changes anything. *)
Definition select_files (maxFiles : Z) (files : list file) (c : client)
    : client :=
  if (Z.of_nat (length files) >? 1)%Z && (maxFiles >? 1)%Z then
    let toAdd := slice0 files (maxFiles - Z.of_nat (length (fileQueue c))) in
    let c :=
      if (Z.of_nat (length (fileQueue c)) + Z.of_nat (length files) >? maxFiles)%Z
      then showToast (MaxFilesPerBatch maxFiles) c
      else c in
    foldl (fun c f => addToQueue f c) c toAdd
  else
    match files with
    | f :: _ => handleFileSelect f c
    | [] => c
    end.

(** The ['drop'] listener of the upload area, from [maxFiles] on: the
    same selection without the warning, and nothing at all when no
    file was dropped. *)
Definition drop_files (maxFiles : Z) (files : list file) (c : client)
    : client :=
  if (Z.of_nat (length files) >? 1)%Z && (maxFiles >? 1)%Z then
    let toAdd := slice0 files (maxFiles - Z.of_nat (length (fileQueue c))) in
    foldl (fun c f => addToQueue f c) c toAdd
  else
    match files with
    | f :: _ => handleFileSelect f c
    | [] => c
    end.

Definition on_change (plan_tier : option string) (files : list file)
    (c : client) : client :=
  select_files (maxFiles_of (plan_of plan_tier)) files c.

(** A session of selections under one plan. *)
Definition on_changes (plan_tier : option string)
    (batches : list (list file)) (c : client) : client :=
  foldl (fun c files => on_change plan_tier files c) c batches.

End Client.

(** [fileQueue = fileQueue.filter(f => f.id !== id)] *)
Definition removeFromQueue (i : string) (c : client) : client :=
  with_queue (List.filter (fun f => negb (String.eqb (id f) i)) (fileQueue c)) c.

End UploadQueue.

(** ** Upload pipeline and single-file upload (admin.js) *)

Module Pipeline.
Import CredentialStore Gateway GatewayObs UploadQueue.

(** What [await apiFetch(...)] gives back. *)
Inductive settled :=
| Fulfilled (res : response)
| Rejected.

(** What the page reports while it works, in program order. Items are
    named by their position in [fileQueue]. *)
Inductive pevent :=
| StatusSet (i : nat) (st : lifecycle)
| Render (snapshot : list (string * lifecycle))
| Progress (done total : nat)
| TransportBegin (i : nat)
| TransportEnd (i : nat) (o : settled)
| Delay (ms : Z)
| XhrSend (authorization : option string).

(** The whole page: the API layer's state, the upload script's state,
    how many replies of the network have been consumed, and the
    reports so far. *)
Record page := Page {
  gw : Gateway.state;
  cl : client;
  consumed : nat;
  trace : list pevent
}.

Definition report (evs : list pevent) (p : page) : page :=
  Page (gw p) (cl p) (consumed p) (trace p ++ evs).

Definition with_client (c : client) (p : page) : page :=
  Page (gw p) c (consumed p) (trace p).

(** How the promise of a call has settled. A call that no event can
    resume any more has returned or thrown. *)
Definition settled_of (p : option pc) : settled :=
  match p with
  | Some (Returned res) => Fulfilled res
  | _ => Rejected
  end.

Section Run.

(** The network: the k-th reply it delivers. *)
Variable net : nat -> reply.

(** Resume call [tid] once, with the next reply if it waits for one. *)
Definition resume (tid : nat) (gk : Gateway.state * nat)
    : Gateway.state * nat :=
  let '(g, k) := gk in
  match pc_of tid g with
  | Some (AwaitFirst _ | AwaitRefresh _ _ | AwaitRetry _) =>
      (step g (Settle tid (net k)), S k)
  | Some (AwaitRefreshJson _ _ _) => (step g (Wake tid), k)
  | _ => (g, k)
  end.

(** [await apiFetch(path, options)] with no other call in progress:
    the call is resumed until it settles, which takes at most four
    resumptions. *)
Definition await_apiFetch (path : string) (o : options)
    (gk : Gateway.state * nat) : Gateway.state * nat * settled :=
  let tid := length (tasks (fst gk)) in
  let gk' := Nat.iter 4 (resume tid) (step (fst gk) (Call path o), snd gk) in
  (gk', settled_of (pc_of tid (fst gk'))).

Definition set_status (i : nat) (st : lifecycle) (q : list item) : list item :=
  alter (fun it => Item (id it) (item_file it) st (result it)) i q.

Definition set_result (i : nat) (data : json) (q : list item) : list item :=
  alter (fun it => Item (id it) (item_file it) (item_status it) (Some data)) i q.

Definition snapshot (q : list item) : list (string * lifecycle) :=
  map (fun it => (id it, item_status it)) q.

Definition renderQueue (p : page) : page :=
  report [Render (snapshot (fileQueue (cl p)))] p.

Definition mark (i : nat) (st : lifecycle) (p : page) : page :=
  report [StatusSet i st]
    (with_client (with_queue (set_status i st (fileQueue (cl p))) (cl p)) p).

Definition split_path (duration : string) : string :=
  "/api/v1/split?segment_duration=" ++ duration.

(** The [try] block of one iteration: the status the item ends with
    and, on success, the payload. Anything thrown inside is caught. *)
Definition verdict (o : settled) : lifecycle * option json :=
  match o with
  | Rejected => (Failed, None)
  | Fulfilled res =>
      if ok res then
        match body res with
        | Some data => (Done, Some data)
        | None => (Failed, None)
        end
      else (Failed, None)
  end.

(** One iteration of [for (const item of fileQueue)], on the item at
    position [i]; [done] is the local counter. *)
Definition iteration (duration : string) (acc : page * nat) (i : nat)
    : page * nat :=
  let '(p, done) := acc in
  let p := renderQueue (mark i Uploading p) in
  let p := report [TransportBegin i] p in
  let '(g, k, o) :=
    await_apiFetch (split_path duration) (Options ∅ true) (gw p, consumed p) in
  let p := report [TransportEnd i o] (Page g (cl p) k (trace p)) in
  let '(st, data) := verdict o in
  let p := mark i st p in
  let p :=
    match data with
    | Some d => with_client (with_queue (set_result i d (fileQueue (cl p))) (cl p)) p
    | None => p
    end in
  let done := match st with Done => S done | _ => done end in
  let p := report [Progress done (length (fileQueue (cl p)))] p in
  let p := renderQueue p in
  (report [Delay 500] p, done).

(** What one iteration leaves in the item: the status and, on
    success, the payload; nothing else is written. *)
Definition finalize (o : settled) (it : item) : item :=
  Item (id it) (item_file it) (verdict o).1
       (match (verdict o).2 with Some d => Some d | None => result it end).

Inductive completion := Completed | Raised.

(** [fileQueue.find(f => f.status === 'done')] *)
Definition find_done (q : list item) : option item :=
  List.find (fun f => match item_status f with Done => true | _ => false end) q.

(** After the loop. Reading [job_id] off a payload that is [null]
    raises. *)
Definition conclude (p : page) : page * completion :=
  match find_done (fileQueue (cl p)) with
  | Some firstSuccess =>
      match result firstSuccess with
      | Some (JVal fields) =>
          (with_client
             (show_results (fields !! "job_id") (JVal fields) (cl p)) p,
           Completed)
      | _ => (p, Raised)
      end
  | None =>
      (with_client
         (showError (Some "All files failed to process. Please try again.") (cl p)) p,
       Completed)
  end.

(** The loop of [processQueue], run on its own: no listener (a file
    selection, a removal) fires while it waits. *)
Definition drain (duration : string) (p : page) : page * nat :=
  let n := length (fileQueue (cl p)) in
  foldl (iteration duration) (report [Progress 0 n] p, 0%nat) (seq 0 n).

Definition processQueue (duration : string) (p : page) : page * completion :=
  match fileQueue (cl p) with
  | [] => (p, Completed)
  | _ :: _ => conclude (fst (drain duration p))
  end.

(** The [Authorization] header [splitVideo] sets, if any. *)
Definition bearer (token : option string) : option string :=
  match token with
  | Some t => if truthy (Some t) then Some ("Bearer " ++ t) else None
  | None => None
  end.

(** [splitVideo]: one XMLHttpRequest, its ['load'] or ['error']
    listener. An exception in a listener leaves the page as it is. *)
Definition on_xhr_load (res : response) (c : client) : client :=
  if (status res =? 200)%Z then
    match body res with
    | Some (JVal data) => show_results (data !! "job_id") (JVal data) c
    | _ => c
    end
  else if (status res =? 401)%Z then
    showError (Some "Please sign in to upload videos.") c
  else if (status res =? 402)%Z then
    showError (Some "Monthly usage limit reached. Please upgrade your plan.") c
  else if (status res =? 429)%Z then
    showError (Some "Too many requests. Please wait a moment and try again.") c
  else
    let detail :=
      match body res with
      | Some (JVal data) => data !! "detail"
      | _ => Some "Failed to process video"
      end in
    showError detail c.

Definition splitVideo (p : page) : page :=
  match selectedFile (cl p) with
  | None => p
  | Some _ =>
      let c := showSection s_processing (cl p) in
      let token := getToken (storage (gw p)) in
      let p := report [XhrSend (bearer token)] (with_client c p) in
      let c :=
        match net (consumed p) with
        | NetworkError =>
            showError (Some "Network error. Check your connection and try again.") (cl p)
        | Resp res => on_xhr_load res (cl p)
        end in
      Page (gw p) c (S (consumed p)) (trace p)
  end.

End Run.

(** The item a report is about and the phase of that item's lifecycle
    it marks: 0 uploading, 1 transport begun, 2 transport ended,
    3 terminal status. *)
Definition stamp (e : pevent) : option (nat * nat) :=
  match e with
  | StatusSet i (Queued | Uploading) => Some (i, 0%nat)
  | TransportBegin i => Some (i, 1%nat)
  | TransportEnd i _ => Some (i, 2%nat)
  | StatusSet i (Done | Failed) => Some (i, 3%nat)
  | _ => None
  end.

(** [e1] belongs to an earlier item than [e2], or to an earlier phase
    of the same item. Reports about no item are unconstrained. *)
Definition precedes (e1 e2 : pevent) : Prop :=
  match stamp e1, stamp e2 with
  | Some (i, a), Some (j, b) => (i < j)%nat ∨ (i = j ∧ (a < b)%nat)
  | _, _ => True
  end.

Definition terminal (st : lifecycle) : Prop := st = Done ∨ st = Failed.

(** The transports that do not end in a usable payload: no response
    at all or an exception in the gateway, a status outside 200-299
    (a server or validation error, or the 401 the gateway hands back
    when it does not replay), a body that is not JSON. *)
Definition failure (o : settled) : Prop :=
  match o with
  | Rejected => True
  | Fulfilled res => ok res = false ∨ body res = None
  end.

(** The reports a run has added to the page. *)
Definition reported (p p' : page) : list pevent :=
  drop (length (trace p)) (trace p').

End Pipeline.

(** ** Concrete inputs used by the examples *)

Module Scenario.
Import Gateway UploadQueue Pipeline.

(** [toLowerCase] on ASCII letters. *)
Definition lower_ascii (c : Ascii.ascii) : Ascii.ascii :=
  let n := Ascii.nat_of_ascii c in
  if ((65 <=? n) && (n <=? 90))%nat then Ascii.ascii_of_nat (n + 32) else c.

Fixpoint lower (s : string) : string :=
  match s with
  | EmptyString => EmptyString
  | String c rest => String (lower_ascii c) (lower rest)
  end.

(** A supply of distinct ids. *)
Definition rid (n : nat) : string :=
  "id" ++ String (Ascii.ascii_of_nat (48 + n)) "".

(** A signed-in browser whose access credential has expired. *)
Definition signed_in : gmap string string :=
  {[ "vs_access_token" := "old"; "vs_refresh_token" := "r0" ]}.

Definition plain : options := Options ∅ false.

Definition expired : response := Response 401 None.

Definition fresh_pair : response :=
  Response 200
    (Some (JVal {[ "access_token" := "new"; "refresh_token" := "r1" ]})).

Definition job (j : string) : json := JVal {[ "job_id" := j ]}.

Definition success (j : string) : response := Response 200 (Some (job j)).

(** Two requests fault; the first one starts the refresh and the
    second one's 401 arrives while that refresh is in flight. *)
Definition both_fault : list event :=
  [Call "/a" plain; Call "/b" plain;
   Settle 0 (Resp expired); Settle 1 (Resp expired)].

(** The server rejects the second request's replay, then the refresh
    succeeds and the first request's replay is served. *)
Definition and_then : list event :=
  [Settle 1 (Resp expired); Settle 0 (Resp fresh_pair); Wake 0;
   Settle 0 (Resp (success "j0"))].

(** One request up to its replay, and a server that keeps answering
    401 afterwards. *)
Definition until_replay : list event :=
  [Call "/a" plain; Settle 0 (Resp expired); Settle 0 (Resp fresh_pair); Wake 0].

Definition replay_headers : gmap string string :=
  {[ "Content-Type" := "application/json"; "Authorization" := "Bearer new" ]}.

Definition keeps_expiring : list event :=
  [Settle 0 (Resp expired); Call "/a" plain; Settle 0 (Resp expired);
   Wake 0; Settle 0 (Resp expired)].

(** Files and queues. *)
Definition clip_a : file := File "a.MP4" 10.
Definition clip_b : file := File "b.mov" (500 * 1024 * 1024).
Definition clip_c : file := File "c.mkv" 2048.
Definition notes : file := File "notes.txt" 5.
Definition too_big : file := File "d.avi" (500 * 1024 * 1024 + 1).

Definition six_clips : list file :=
  [clip_a; clip_b; clip_c; File "e.avi" 1; File "f.mp4" 2; File "g.mov" 3].

Definition entry_a : item := Item "a" clip_a Uploading None.
Definition entry_b : item := Item "b" clip_b Done (Some (job "j1")).
Definition entry_c : item := Item "c" clip_c Failed None.
Definition entry_d : item := Item "d" clip_a Queued None.

Definition busy : client :=
  with_queue [entry_a; entry_b; entry_c; entry_d] initial_client.

(** Pages about to upload, and networks. *)
Definition three_queued : page :=
  Page (init signed_in)
       (select_files lower rid 5 [clip_a; clip_b; clip_c] initial_client)
       0 [].

Definition one_queued : page :=
  Page (init signed_in) (addToQueue lower rid clip_a initial_client) 0 [].

Definition one_selected : page :=
  Page (init signed_in) (handleFileSelect lower clip_a initial_client) 0 [].

(** The second upload fails on the server, the others are served. *)
Definition second_fails (k : nat) : reply :=
  match k with
  | 0%nat => Resp (success "j1")
  | 1%nat => Resp (Response 500 None)
  | _ => Resp (success "j3")
  end.

Definition offline (k : nat) : reply := NetworkError.

Definition server_error (k : nat) : reply :=
  Resp (Response 500 (Some (JVal {[ "detail" := "boom" ]}))).

Definition served (k : nat) : reply := Resp (success "j1").

(** The access credential has expired; the refresh succeeds and the
    request is served afterwards. *)
Definition expired_then_refreshed (k : nat) : reply :=
  match k with
  | 0%nat => Resp expired
  | 1%nat => Resp fresh_pair
  | _ => Resp (success "j1")
  end.

End Scenario.
(** * Properties *)

(** ** The credential store *)

Module CredentialStoreFacts.
Import CredentialStore.

Lemma getToken_clearTokens ls : getToken (clearTokens ls) = None.
Proof.
  unfold getToken, clearTokens.
  rewrite !lookup_delete_ne by done. apply lookup_delete_eq.
Qed.

Lemma getRefreshToken_clearTokens ls : getRefreshToken (clearTokens ls) = None.
Proof.
  unfold getRefreshToken, clearTokens.
  rewrite lookup_delete_ne by done. apply lookup_delete_eq.
Qed.

Lemma getToken_setTokens a r ls : getToken (setTokens a r ls) = Some a.
Proof.
  unfold getToken, setTokens.
  rewrite lookup_insert_ne by done. apply lookup_insert_eq.
Qed.

End CredentialStoreFacts.

(** ** The gateway, call by call *)

Module GatewayFacts.
Import CredentialStore Gateway GatewayObs.

Lemma count_snoc p l a :
  count p (l ++ [a]) = (count p l + if p a then 1 else 0)%nat.
Proof.
  unfold count. rewrite List.filter_app, length_app. simpl.
  destruct (p a); reflexivity.
Qed.

Lemma pc_of_emit tid a s : pc_of tid (emit a s) = pc_of tid s.
Proof. reflexivity. Qed.

Lemma refresh_calls_emit tid a s :
  refresh_calls tid (emit a s) =
  (refresh_calls tid s + if is_refresh_of tid a then 1 else 0)%nat.
Proof. apply count_snoc. Qed.

Lemma requests_emit tid a s :
  requests tid (emit a s) =
  (requests tid s + if is_request_of tid a then 1 else 0)%nat.
Proof. apply count_snoc. Qed.

Lemma view_emit tid a s :
  view tid (emit a s) =
  (pc_of tid s,
   (refresh_calls tid s + if is_refresh_of tid a then 1 else 0)%nat,
   (requests tid s + if is_request_of tid a then 1 else 0)%nat).
Proof. unfold view. by rewrite refresh_calls_emit, requests_emit. Qed.

Lemma view_set_pc tid' tid p s :
  view tid' (set_pc tid p s) =
  if decide (tid = tid')
  then ((fun _ => p) <$> pc_of tid s, refresh_calls tid s, requests tid s)
  else view tid' s.
Proof.
  unfold view, pc_of, set_pc, refresh_calls, requests; simpl.
  rewrite list_lookup_alter. case_decide as E; [subst|done].
  by destruct (tasks s !! tid').
Qed.

Lemma view_release tok q tid s :
  view tid (foldl (fun s fn => emit (Release fn tok) s) s q) = view tid s
  ∧ tasks (foldl (fun s fn => emit (Release fn tok) s) s q) = tasks s.
Proof.
  revert s. induction q as [|w q IH]; intros s; simpl; [done|].
  destruct (IH (emit (Release w tok) s)) as (-> & ->).
  rewrite view_emit. simpl. by rewrite !Nat.add_0_r.
Qed.

Ltac gw_cases :=
  repeat match goal with
    | |- context [decide (?a = ?b)] => destruct (decide (a = b)); subst
    | |- context [Nat.eqb ?a ?b] => destruct (Nat.eqb_spec a b); subst
    end; try congruence; try reflexivity.

(** [retry] moves its own call along an edge and touches no other. *)
Lemma retry_advance tid t res h s tid' :
  tasks s !! tid = Some t →
  match t_pc t with
  | AwaitFirst _ | AwaitRefresh _ _ | AwaitRefreshJson _ _ _ => True
  | _ => False
  end →
  if decide (tid = tid')
  then advance (view tid s) (view tid (retry tid t res h s))
  else view tid' (retry tid t res h s) = view tid' s.
Proof.
  intros Ht Hpc.
  assert (Hp : pc_of tid s = Some (t_pc t)) by (unfold pc_of; by rewrite Ht).
  unfold retry.
  destruct (getToken (storage s)) as [tok|]; [destruct (truthy (Some tok))|];
    rewrite !view_set_pc; gw_cases; rewrite ?view_emit; unfold view;
    rewrite ?pc_of_emit, ?refresh_calls_emit, ?requests_emit, ?Hp; simpl;
    gw_cases; rewrite ?Nat.add_0_r; try done.
  all: destruct (t_pc t); try done; lia.
Qed.

(** Every step moves the call it addresses along one edge of the
    control-flow graph and leaves every other call as it was. *)
Lemma step_advance s e tid :
  if decide (addressed e s = Some tid)
  then advance (view tid s) (view tid (step s e))
  else view tid (step s e) = view tid s.
Proof.
  destruct e as [path o|tid0 r|tid0]; cbn [step addressed].
  - unfold call. rewrite view_emit.
    unfold view, pc_of, refresh_calls, requests; simpl.
    case_decide as E.
    + injection E as <-. rewrite list_lookup_middle by done.
      rewrite lookup_ge_None_2 by lia. simpl. gw_cases. lia.
    + assert (tid ≠ length (tasks s)) by congruence.
      destruct (decide (tid < length (tasks s))%nat).
      * rewrite lookup_app_l by done. gw_cases. by rewrite !Nat.add_0_r.
      * rewrite !lookup_ge_None_2 by (rewrite ?length_app; simpl; lia).
        gw_cases. by rewrite !Nat.add_0_r.
  - destruct (tasks s !! tid0) as [t|] eqn:Ht;
      [|unfold pc_of; rewrite Ht; by case_decide].
    assert (Hp : pc_of tid0 s = Some (t_pc t)) by (unfold pc_of; by rewrite Ht).
    rewrite Hp.
    destruct (t_pc t) as [h|res h|res h rr|h|res|] eqn:Hpc;
      try (by case_decide).
    + unfold after_first. destruct r as [|res].
      { rewrite view_set_pc. gw_cases. unfold view; rewrite Hp; simpl; by repeat split. }
      destruct (_ && _).
      * destruct (negb (_refreshing s)).
        -- rewrite view_set_pc. gw_cases.
           ++ unfold view. rewrite refresh_calls_emit, requests_emit, pc_of_emit.
              simpl. rewrite Nat.eqb_refl.
              change (pc_of tid (set_refreshing true s)) with (pc_of tid s).
              rewrite Hp. simpl. unfold refresh_calls, requests; simpl. lia.
           ++ rewrite view_emit. simpl. gw_cases. by rewrite !Nat.add_0_r.
        -- pose proof (retry_advance tid0 t res h s tid Ht) as Hadv.
           rewrite Hpc in Hadv. specialize (Hadv I).
           repeat case_decide; subst; congruence || auto.
      * rewrite view_set_pc. gw_cases. unfold view; rewrite Hp; simpl; by repeat split.
    + unfold after_refresh. destruct r as [|rr].
      { rewrite view_set_pc. gw_cases. unfold view.
        change (pc_of tid (finally_refresh s)) with (pc_of tid s); rewrite Hp; simpl; by repeat split. }
      destruct (ok rr).
      * rewrite view_set_pc. gw_cases. unfold view; rewrite Hp; simpl; by repeat split.
      * match goal with |- context [retry _ _ _ _ ?s1] =>
          pose proof (retry_advance tid0 t res h s1 tid Ht) as Hadv;
          assert (Hv : view tid s1 = view tid s)
            by (unfold view, refresh_calls, requests; simpl;
                rewrite !count_snoc; simpl; by rewrite !Nat.add_0_r)
        end.
        rewrite Hpc in Hadv. specialize (Hadv I).
        repeat case_decide; subst; try congruence; rewrite <- Hv; auto.
    + destruct r as [|res']; rewrite view_set_pc; gw_cases;
        unfold view; rewrite Hp; simpl; by repeat split.
  - destruct (tasks s !! tid0) as [t|] eqn:Ht;
      [|unfold pc_of; rewrite Ht; by case_decide].
    assert (Hp : pc_of tid0 s = Some (t_pc t)) by (unfold pc_of; by rewrite Ht).
    rewrite Hp.
    destruct (t_pc t) as [h|res h|res h rr|h|res|] eqn:Hpc;
      try (by case_decide).
    unfold after_refresh_json.
    destruct (body rr) as [[|data]|].
    1,3: rewrite view_set_pc; gw_cases; unfold view;
         change (pc_of tid (finally_refresh s)) with (pc_of tid s); rewrite Hp; simpl; by repeat split.
    match goal with |- context [foldl ?f ?s0 ?q] =>
      destruct (view_release (to_js_string (data !! "access_token")) q tid s0)
        as (Hv & Hta);
      set (s1 := foldl f s0 q) in *
    end.
    simpl in Hta.
    assert (Hv' : view tid (finally_refresh s1) = view tid s).
    { transitivity (view tid s1); [reflexivity | exact Hv]. }
    pose proof (retry_advance tid0 t res h (finally_refresh s1) tid) as Hadv.
    simpl in Hadv. rewrite Hta, Hpc in Hadv. specialize (Hadv Ht I).
    repeat case_decide; subst; try congruence; rewrite <- Hv'; auto.
Qed.

Lemma advance_budget v v' : advance v v' → budget v → budget v'.
Proof.
  destruct v as [[[p|] r] q], v' as [[[p'|] r'] q']; simpl;
    try destruct p; try destruct p'; simpl; lia.
Qed.

Lemma advance_rank v v' : advance v v' → (rank v'.1.1 < rank v.1.1)%nat.
Proof.
  destruct v as [[[p|] r] q], v' as [[[p'|] r'] q']; simpl;
    try destruct p; try destruct p'; simpl; lia.
Qed.

Lemma budget_init ls tid : budget (view tid (init ls)).
Proof. unfold view, pc_of; simpl. by rewrite ?lookup_nil. Qed.

Lemma step_budget s e :
  (∀ tid, budget (view tid s)) → ∀ tid, budget (view tid (step s e)).
Proof.
  intros H tid. pose proof (step_advance s e tid) as Hs.
  case_decide; [eapply advance_budget; eauto | by rewrite Hs].
Qed.

Lemma run_budget s evs :
  (∀ tid, budget (view tid s)) → ∀ tid, budget (view tid (run s evs)).
Proof.
  revert s. induction evs as [|e evs IH]; intros s H; simpl; [done|].
  apply IH, step_budget, H.
Qed.

(** A call that has returned or thrown is never moved again. *)
Lemma step_finished s e tid :
  rank (pc_of tid s) = 0%nat → view tid (step s e) = view tid s.
Proof.
  intros Hr. pose proof (step_advance s e tid) as Hs.
  case_decide; [|done]. apply advance_rank in Hs. simpl in Hs. lia.
Qed.

Lemma run_finished s evs tid :
  rank (pc_of tid s) = 0%nat → view tid (run s evs) = view tid s.
Proof.
  revert s. induction evs as [|e evs IH]; intros s Hr; simpl; [done|].
  pose proof (step_finished s e tid Hr) as Hv.
  rewrite IH; [done|]. unfold view in Hv. by injection Hv as -> _ _.
Qed.

(** *** The refresh flag and the waiters *)

Lemma retry_globals tid t res h s :
  _refreshQueue (retry tid t res h s) = _refreshQueue s
  ∧ _refreshing (retry tid t res h s) = _refreshing s
  ∧ storage (retry tid t res h s) = storage s.
Proof.
  unfold retry.
  by destruct (getToken (storage s)) as [tok|]; [destruct (truthy (Some tok))|].
Qed.

(** Nothing ever enters [_refreshQueue]: no caller registers as a
    waiter. *)
Lemma step_no_waiters s e : _refreshQueue s = [] → _refreshQueue (step s e) = [].
Proof.
  intros Hq. destruct e as [path o|tid r|tid]; simpl; [done| |].
  - destruct (tasks s !! tid) as [t|]; [|done].
    destruct (t_pc t); try done.
    + unfold after_first. destruct r; [done|].
      destruct (_ && _); [|done]. destruct (negb _); [done|].
      by rewrite (proj1 (retry_globals _ _ _ _ _)).
    + unfold after_refresh. destruct r as [|rr]; [done|].
      destruct (ok rr); [done|]. by rewrite (proj1 (retry_globals _ _ _ _ _)).
    + by destruct r.
  - destruct (tasks s !! tid) as [t|]; [|done].
    destruct (t_pc t); try done.
    unfold after_refresh_json. destruct (body _) as [[|data]|]; try done.
    by rewrite (proj1 (retry_globals _ _ _ _ _)).
Qed.

Lemma run_no_waiters ls evs : _refreshQueue (run (init ls) evs) = [].
Proof.
  assert (H : ∀ s, _refreshQueue s = [] → _refreshQueue (run s evs) = []).
  { induction evs as [|e evs IH]; intros s Hs; simpl; [done|].
    apply IH, step_no_waiters, Hs. }
  by apply H.
Qed.

Lemma count_leaders_alter (p : pc) (l : list task) (i : nat) (t : task) :
  l !! i = Some t →
  (length (List.filter is_leader
             (alter (fun t => Task (t_path t) (t_options t) p) i l))
   + (if is_leader t then 1 else 0)
   = length (List.filter is_leader l)
     + (if is_leader (Task (t_path t) (t_options t) p) then 1 else 0))%nat.
Proof.
  revert i. induction l as [|x l IH]; intros [|i] H; simpl in *; try done.
  - injection H as ->. destruct (is_leader t), (is_leader (Task _ _ p)); simpl; lia.
  - specialize (IH i H). destruct (is_leader x); simpl;
      first [exact IH | f_equal; exact IH].
Qed.

Lemma leaders_set_pc tid t p s :
  tasks s !! tid = Some t →
  (leaders (set_pc tid p s) + (if is_leader t then 1 else 0)
   = leaders s + (if is_leader (Task (t_path t) (t_options t) p) then 1 else 0))%nat.
Proof. intros H. unfold leaders, set_pc; simpl. by apply count_leaders_alter. Qed.

Lemma leaders_retry tid t res h s :
  tasks s !! tid = Some t →
  (leaders (retry tid t res h s) + (if is_leader t then 1 else 0) = leaders s)%nat.
Proof.
  intros Ht. unfold retry.
  destruct (getToken (storage s)) as [tok|]; [destruct (truthy (Some tok))|].
  all: match goal with |- context [set_pc _ ?p ?s1] =>
         pose proof (leaders_set_pc tid t p s1 Ht) as H end.
  all: simpl in H; unfold leaders in *; simpl in *; lia.
Qed.

Lemma step_single_flight s e : single_flight s → single_flight (step s e).
Proof.
  unfold single_flight. intros H.
  destruct e as [path o|tid r|tid]; simpl.
  - unfold leaders; simpl. rewrite List.filter_app, length_app. simpl.
    unfold leaders in H. lia.
  - destruct (tasks s !! tid) as [t|] eqn:Ht; [|done].
    destruct (t_pc t) eqn:Hpc; try done.
    + assert (Hl : is_leader t = false) by (unfold is_leader; by rewrite Hpc).
      unfold after_first. destruct r as [|res].
      { pose proof (leaders_set_pc tid t Thrown s Ht) as E.
        rewrite Hl in E. simpl in *. lia. }
      destruct (_ && _).
      * destruct (_refreshing s) eqn:Hf; simpl.
        -- pose proof (leaders_retry tid t res headers s Ht) as E.
           destruct (retry_globals tid t res headers s) as (_ & -> & _).
           rewrite Hl, Hf in *. lia.
        -- match goal with |- context [set_pc _ ?p ?s1] =>
             pose proof (leaders_set_pc tid t p s1 Ht) as E end.
           rewrite Hl in E. unfold leaders in *. simpl in *. lia.
      * pose proof (leaders_set_pc tid t (Returned res) s Ht) as E.
        rewrite Hl in E. simpl in *. lia.
    + assert (Hl : is_leader t = true) by (unfold is_leader; by rewrite Hpc).
      assert (Hf : _refreshing s = true).
      { destruct (_refreshing s); [done|].
        pose proof (leaders_set_pc tid t Thrown s Ht) as E.
        rewrite Hl in E. simpl in E. lia. }
      rewrite Hf in H.
      unfold after_refresh. destruct r as [|rr].
      { pose proof (leaders_set_pc tid t Thrown (finally_refresh s) Ht) as E.
        rewrite Hl in E. unfold leaders in *. simpl in *. lia. }
      destruct (ok rr).
      * match goal with |- context [set_pc _ ?p ?s1] =>
          pose proof (leaders_set_pc tid t p s1 Ht) as E end.
        rewrite Hl in E. simpl in *. rewrite Hf. lia.
      * match goal with |- context [retry _ _ ?a ?b ?s1] =>
          pose proof (leaders_retry tid t a b s1 Ht) as E;
          destruct (retry_globals tid t a b s1) as (_ & -> & _) end.
        rewrite Hl in E. unfold leaders in *. simpl in *. lia.
    + assert (Hl : is_leader t = false) by (unfold is_leader; by rewrite Hpc).
      destruct r as [|res];
        match goal with |- context [set_pc _ ?p ?s1] =>
          pose proof (leaders_set_pc tid t p s1 Ht) as E end;
        rewrite Hl in E; simpl in *; lia.
  - destruct (tasks s !! tid) as [t|] eqn:Ht; [|done].
    destruct (t_pc t) eqn:Hpc; try done.
    assert (Hl : is_leader t = true) by (unfold is_leader; by rewrite Hpc).
    unfold after_refresh_json.
    destruct (body rr) as [[|data]|].
    1,3: pose proof (leaders_set_pc tid t Thrown (finally_refresh s) Ht) as E;
         rewrite Hl in E; unfold leaders in *; simpl in *;
         destruct (_refreshing s); lia.
    match goal with |- context [foldl ?f ?s0 ?q] =>
      destruct (view_release (to_js_string (data !! "access_token")) q 0 s0)
        as (_ & Hta);
      set (s1 := foldl f s0 q) in *
    end.
    simpl in Hta.
    pose proof (leaders_retry tid t res headers (finally_refresh s1)) as E.
    destruct (retry_globals tid t res headers (finally_refresh s1)) as (_ & -> & _).
    simpl in E. rewrite Hta in E. specialize (E Ht).
    rewrite Hl in E. unfold leaders in *. simpl in *. rewrite Hta in E.
    destruct (_refreshing s); lia.
Qed.
End GatewayFacts.
(** ** The gateway: refresh on 401 *)

Module GatewayClaims.
Import CredentialStore Gateway GatewayObs GatewayFacts Scenario.

(** C1 (single-flight refresh, followers wait and share the outcome):
    the code departs from it. With two faulting requests, the second
    finds [_refreshing] set and, instead of waiting, replays at once
    with the credential still in storage; no waiter is registered.
    The refresh then succeeds, the leader's replay is served and the
    follower has already failed with 401: two outcomes for one
    refresh. *)
Theorem apiFetch_follower_does_not_wait :
  let s1 := run (init signed_in) both_fault in
  let s2 := run s1 and_then in
  (_refreshing s1 = true
   ∧ _refreshQueue s1 = []
   ∧ rank (pc_of 0 s1) = 3%nat
   ∧ (∃ h, pc_of 1 s1 = Some (AwaitRetry h)
           ∧ h !! "Authorization" = Some "Bearer old"))
  ∧ map brief_of (log s2) =
      [BRequest 0 (Some "Bearer old"); BRequest 1 (Some "Bearer old");
       BRefresh 0 (Some "r0");
       BRequest 1 (Some "Bearer old");
       BRequest 0 (Some "Bearer new")]
  ∧ pc_of 0 s2 = Some (Returned (success "j0"))
  ∧ pc_of 1 s2 = Some (Returned expired).
Proof.
  cbv zeta. split; [|vm_compute; repeat split; reflexivity].
  do 3 (split; [vm_compute; reflexivity|]).
  eexists. split; vm_compute; reflexivity.
Qed.

(** C2 (a replay that returns 401 triggers no second refresh): once a
    call is waiting for its replay, whatever the replay returns (a 401
    included) is what the call returns, nothing is issued at that
    point, and whatever happens afterwards the call issues nothing
    more: over its whole life it has issued at most one refresh call
    and two requests. *)
Theorem apiFetch_replay_is_final (ls : gmap string string)
    (before after : list event) (tid : nat) (h : gmap string string)
    (res : response) :
  let s := run (init ls) before in
  let s' := step s (Settle tid (Resp res)) in
  let s'' := run s' after in
  pc_of tid s = Some (AwaitRetry h) →
  pc_of tid s' = Some (Returned res)
  ∧ log s' = log s
  ∧ pc_of tid s'' = Some (Returned res)
  ∧ refresh_calls tid s'' = refresh_calls tid s
  ∧ requests tid s'' = requests tid s
  ∧ (refresh_calls tid s'' ≤ 1)%nat
  ∧ requests tid s'' = 2%nat.
Proof.
  intros s s' s'' Hpc.
  assert (Hs' : pc_of tid s' = Some (Returned res) ∧ log s' = log s).
  { subst s'. unfold pc_of in *. simpl.
    destruct (tasks s !! tid) as [t|] eqn:Ht; [|done].
    simpl in Hpc. injection Hpc as Hpc. rewrite Hpc. simpl.
    rewrite list_lookup_alter. case_decide; [|done]. by rewrite Ht. }
  destruct Hs' as [Hp' Hl'].
  assert (Hv : view tid s'' = view tid s').
  { apply run_finished. by rewrite Hp'. }
  unfold view in Hv. injection Hv as Hp Hr Hq.
  assert (Hr' : refresh_calls tid s' = refresh_calls tid s)
    by (unfold refresh_calls; by rewrite Hl').
  assert (Hq' : requests tid s' = requests tid s)
    by (unfold requests; by rewrite Hl').
  pose proof (run_budget (init ls) before (budget_init ls) tid) as Hb.
  fold s in Hb. unfold view in Hb. rewrite Hpc in Hb. simpl in Hb.
  rewrite Hp, Hr, Hq, Hr', Hq'. repeat split; try done; lia.
Qed.

Lemma apiFetch_replay_is_final_witness :
  let s := run (init signed_in) until_replay in
  let s' := step s (Settle 0 (Resp expired)) in
  let s'' := run s' keeps_expiring in
  pc_of 0 s = Some (AwaitRetry replay_headers)
  ∧ pc_of 0 s' = Some (Returned expired)
  ∧ log s' = log s
  ∧ pc_of 0 s'' = Some (Returned expired)
  ∧ refresh_calls 0 s'' = refresh_calls 0 s
  ∧ requests 0 s'' = requests 0 s
  ∧ (refresh_calls 0 s'' ≤ 1)%nat
  ∧ requests 0 s'' = 2%nat.
Proof.
  assert (H : pc_of 0 (run (init signed_in) until_replay)
              = Some (AwaitRetry replay_headers)) by (vm_compute; reflexivity).
  split; [exact H|].
  exact (apiFetch_replay_is_final signed_in until_replay keeps_expiring 0
           replay_headers expired H).
Defined.

(** What C1 misses, in general: a call whose 401 arrives while a
    refresh is in flight is not suspended. It replays at once with the
    access credential that is in storage at that moment, the refresh
    still being in flight, and registers nowhere. *)
Lemma follower_replays_at_once (ls : gmap string string) (evs : list event)
    (tid : nat) (h : gmap string string) (res : response) (tok : string) :
  let s := run (init ls) evs in
  let s' := step s (Settle tid (Resp res)) in
  pc_of tid s = Some (AwaitFirst h) → _refreshing s = true →
  status res = 401%Z → truthy (getRefreshToken (storage s)) = true →
  getToken (storage s) = Some tok → truthy (Some tok) = true →
  pc_of tid s' = Some (AwaitRetry (<["Authorization" := "Bearer " ++ tok]> h))
  ∧ _refreshing s' = true ∧ _refreshQueue s' = [] ∧ storage s' = storage s.
Proof.
  intros s s' Hpc Hflag Hst Hrt Htok Htr.
  assert (Hq : _refreshQueue s = []) by apply run_no_waiters.
  subst s'. unfold pc_of in *. simpl.
  destruct (tasks s !! tid) as [t|] eqn:Ht; [|done].
  simpl in Hpc. injection Hpc as Hpc. rewrite Hpc.
  unfold after_first, retry. rewrite Hst, Hrt, Hflag, Htok, Htr. simpl.
  rewrite list_lookup_alter_eq, Ht. by rewrite Hflag, Hq.
Qed.

(** A refresh that the server turns down is terminal for the leader:
    the credentials are cleared, the page is sent to the sign-in screen
    once, the flag is lowered, and the call returns the 401 it had
    received without replaying. *)
Lemma refresh_failure_is_terminal (s : state) (tid : nat) (t : task)
    (res rr : response) (h : gmap string string) :
  let s' := step s (Settle tid (Resp rr)) in
  tasks s !! tid = Some t → t_pc t = AwaitRefresh res h → ok rr = false →
  pc_of tid s' = Some (Returned res)
  ∧ getToken (storage s') = None ∧ getRefreshToken (storage s') = None
  ∧ _refreshing s' = false
  ∧ log s' = (log s ++ [Redirect tid])%list.
Proof.
  intros s' Ht Hpc Hok. subst s'. unfold pc_of. simpl.
  rewrite Ht, Hpc. unfold after_refresh. rewrite Hok. unfold retry. simpl.
  rewrite CredentialStoreFacts.getToken_clearTokens. simpl.
  rewrite list_lookup_alter_eq, Ht.
  by rewrite CredentialStoreFacts.getToken_clearTokens,
    CredentialStoreFacts.getRefreshToken_clearTokens.
Qed.

(** A refresh that succeeds makes the leader replay with the access
    credential it has just stored. *)
Lemma leader_replays_with_new_token (s : state) (tid : nat) (t : task)
    (res rr : response) (h data : gmap string string) :
  let s' := step s (Wake tid) in
  let access := to_js_string (data !! "access_token") in
  let h' := <["Authorization" := "Bearer " ++ access]> h in
  tasks s !! tid = Some t → t_pc t = AwaitRefreshJson res h rr →
  body rr = Some (JVal data) → access ≠ "" → _refreshQueue s = [] →
  pc_of tid s' = Some (AwaitRetry h')
  ∧ getToken (storage s') = Some access
  ∧ _refreshing s' = false
  ∧ log s' = (log s ++ [Request tid (t_path t) h'])%list.
Proof.
  intros s' access h' Ht Hpc Hbody Hne Hq. subst s' h'. unfold pc_of. simpl.
  rewrite Ht, Hpc. unfold after_refresh_json. rewrite Hbody.
  change (_refreshQueue (set_storage ?x s)) with (_refreshQueue s).
  rewrite Hq. cbn [foldl]. unfold retry.
  cbn [storage finally_refresh set_storage].
  rewrite CredentialStoreFacts.getToken_setTokens. fold access.
  cbn [truthy]. destruct (String.eqb_spec access ""); [done|].
  cbn [negb]. unfold set_pc, emit; cbn.
  rewrite list_lookup_alter_eq, Ht.
  by rewrite CredentialStoreFacts.getToken_setTokens.
Qed.

(** Refresh calls never overlap: from a fresh page, whatever the
    environment does, at most one call holds the refresh, and it does
    so exactly while [_refreshing] is set. *)
Theorem refresh_is_single_flight (ls : gmap string string) (evs : list event) :
  single_flight (run (init ls) evs) ∧ (leaders (run (init ls) evs) ≤ 1)%nat.
Proof.
  assert (H : ∀ s, single_flight s → single_flight (run s evs)).
  { induction evs as [|e evs IH]; intros s Hs; simpl; [done|].
    apply IH, step_single_flight, Hs. }
  specialize (H (init ls) eq_refl). split; [done|].
  unfold single_flight in H. destruct (_refreshing _); lia.
Qed.

End GatewayClaims.

(** ** The upload queue *)

Module UploadQueueFacts.
Import UploadQueue.

Lemma with_queue_same c : with_queue (fileQueue c) c = c.
Proof. by destruct c. Qed.

Lemma filter_keeps_all (i : string) (l : list item) :
  i ∉ map id l →
  List.filter (fun f => negb (String.eqb (id f) i)) l = l.
Proof.
  induction l as [|x l IH]; simpl; [done|]. intros H.
  apply not_elem_of_cons in H as [Hx Hl].
  destruct (String.eqb_spec (id x) i) as [E|E]; [congruence|].
  simpl. by rewrite IH.
Qed.

Lemma removeFromQueue_absent c i :
  i ∉ map id (fileQueue c) → removeFromQueue i c = c.
Proof.
  intros H. unfold removeFromQueue. rewrite filter_keeps_all by done.
  apply with_queue_same.
Qed.

(** C3, as the code has it: [removeFromQueue] takes the entry with the
    given id out of the queue whatever its status; with ids distinct
    the queue gets shorter by exactly one and the other entries keep
    their order; an id that is not in the queue changes nothing. *)
Theorem removeFromQueue_ignores_status (c : client) (i : string)
    (l1 l2 : list item) (it : item) :
  fileQueue c = (l1 ++ it :: l2)%list →
  id it = i → i ∉ map id l1 → i ∉ map id l2 →
  fileQueue (removeFromQueue i c) = (l1 ++ l2)%list
  ∧ S (length (fileQueue (removeFromQueue i c))) = length (fileQueue c)
  ∧ (∀ j, j ∉ map id (fileQueue c) → removeFromQueue j c = c).
Proof.
  intros Hq Hid H1 H2. split; [|split].
  - unfold removeFromQueue; simpl. rewrite Hq, List.filter_app. simpl.
    rewrite Hid, String.eqb_refl. simpl.
    by rewrite !filter_keeps_all.
  - unfold removeFromQueue; simpl. rewrite Hq, List.filter_app. simpl.
    rewrite Hid, String.eqb_refl. simpl.
    rewrite !filter_keeps_all by done. rewrite !length_app. simpl. lia.
  - intros j. apply removeFromQueue_absent.
Qed.

Section Client.
Variable toLowerCase : string -> string.
Variable random_id : nat -> string.

Abbreviation ext_of := (ext_of toLowerCase).
Abbreviation extension := (extension toLowerCase).
Abbreviation accepts := (accepts toLowerCase).
Abbreviation addToQueue := (addToQueue toLowerCase random_id).
Abbreviation handleFileSelect := (handleFileSelect toLowerCase).
Abbreviation push := (push random_id).
Abbreviation add_all := (foldl (fun c f => addToQueue f c)).

Lemma includes_allowed f :
  includes allowed (ext_of f) = true
  ↔ extension f ∈ ["mp4"; "mov"; "avi"; "mkv"].
Proof.
  unfold includes, allowed, ext_of. simpl.
  rewrite !orb_true_iff, !String.eqb_eq, !elem_of_cons, elem_of_nil.
  intuition congruence.
Qed.

Lemma addToQueue_accepts f c : accepts f = true → addToQueue f c = push f c.
Proof.
  unfold accepts, addToQueue, UploadQueue.addToQueue.
  intros [-> H]%andb_true_iff. simpl.
  by apply negb_true_iff in H as ->.
Qed.

Lemma addToQueue_rejects f c :
  accepts f = false →
  fileQueue (addToQueue f c) = fileQueue c ∧ draws (addToQueue f c) = draws c.
Proof.
  unfold accepts, addToQueue, UploadQueue.addToQueue. intros H.
  destruct (includes allowed (ext_of f)); simpl in *; [|done].
  apply negb_false_iff in H as ->. done.
Qed.

(** What a run of [addToQueue] appends depends on the files alone. *)
Lemma add_all_appends l c :
  ∃ added,
    fileQueue (add_all c l) = (fileQueue c ++ added)%list
    ∧ map item_file added = List.filter accepts l
    ∧ Forall (fun it => item_status it = Queued ∧ result it = None) added.
Proof.
  revert c. induction l as [|f l IH]; intros c; simpl.
  - exists []. by rewrite app_nil_r.
  - destruct (IH (addToQueue f c)) as (added & Hq & Hf & Hs).
    destruct (accepts f) eqn:Ha.
    + rewrite (addToQueue_accepts f c Ha) in *. simpl in Hq.
      exists (Item (random_id (draws c)) f Queued None :: added).
      rewrite Hq, <- app_assoc. simpl. rewrite Hf.
      repeat split; try done. by constructor.
    + destruct (addToQueue_rejects f c Ha) as [Hq' _].
      exists added. by rewrite Hq, Hq'.
Qed.

Lemma add_all_same_queue l c1 c2 :
  fileQueue c1 = fileQueue c2 → draws c1 = draws c2 →
  fileQueue (add_all c1 l) = fileQueue (add_all c2 l)
  ∧ draws (add_all c1 l) = draws (add_all c2 l).
Proof.
  revert c1 c2. induction l as [|f l IH]; intros c1 c2 Hq Hd; simpl; [done|].
  apply IH; destruct (accepts f) eqn:Ha.
  - rewrite !addToQueue_accepts by done. simpl. by rewrite Hq, Hd.
  - destruct (addToQueue_rejects f c1 Ha) as [-> _].
    by destruct (addToQueue_rejects f c2 Ha) as [-> _].
  - rewrite !addToQueue_accepts by done. simpl. by rewrite Hd.
  - destruct (addToQueue_rejects f c1 Ha) as [_ ->].
    by destruct (addToQueue_rejects f c2 Ha) as [_ ->].
Qed.


(** C10: the size check is strict. With a listed extension, a file
    of exactly 500 * 1024 * 1024 bytes is queued by [addToQueue] and
    stored by [handleFileSelect]; both turn a file away for its size
    exactly when it is larger than that. *)
Theorem size_limit_is_inclusive (f : file) (c : client) :
  extension f ∈ ["mp4"; "mov"; "avi"; "mkv"] →
  (file_size f = 500 * 1024 * 1024 →
     addToQueue f c = push f c ∧ handleFileSelect f c = select f c)%Z
  ∧ (file_size f ≤ 500 * 1024 * 1024 →
     addToQueue f c = push f c ∧ handleFileSelect f c = select f c)%Z
  ∧ (500 * 1024 * 1024 < file_size f →
     addToQueue f c = showToast (Exceeds500MB (file_name f)) c
     ∧ handleFileSelect f c =
         showError (Some "File size exceeds 500MB limit. Please select a smaller file.") c)%Z.
Proof.
  intros Hext%includes_allowed.
  assert (Hle : (file_size f ≤ 500 * 1024 * 1024 →
     addToQueue f c = push f c ∧ handleFileSelect f c = select f c)%Z).
  { intros Hs. unfold addToQueue, UploadQueue.addToQueue,
      handleFileSelect, UploadQueue.handleFileSelect, maxSize.
    rewrite Hext. simpl.
    repeat match goal with |- context [(?a >? ?b)%Z] =>
      destruct (Z.gtb_spec a b) end; (lia || done). }
  split; [intros Hs; apply Hle; lia|]. split; [done|].
  intros Hs. unfold addToQueue, UploadQueue.addToQueue,
    handleFileSelect, UploadQueue.handleFileSelect, maxSize.
  rewrite Hext. simpl.
  repeat match goal with |- context [(?a >? ?b)%Z] =>
    destruct (Z.gtb_spec a b) end; (lia || done).
Qed.

(** *** Capacity *)

Lemma MAX_FILES_BY_PLAN_values plan n :
  MAX_FILES_BY_PLAN !! plan = Some n → (n = 1 ∨ n = 5 ∨ n = 10 ∨ n = 20)%Z.
Proof.
  unfold MAX_FILES_BY_PLAN.
  rewrite !lookup_insert_Some, lookup_singleton_Some. intuition lia.
Qed.

Lemma maxFiles_of_pos plan : (1 ≤ maxFiles_of plan)%Z.
Proof.
  unfold maxFiles_of. destruct (MAX_FILES_BY_PLAN !! plan) as [n|] eqn:E; [|lia].
  apply MAX_FILES_BY_PLAN_values in E. destruct (Z.eqb_spec n 0); lia.
Qed.

Lemma slice0_length {A} (l : list A) (e : Z) :
  (0 ≤ e → Z.of_nat (length (slice0 l e)) ≤ e)%Z.
Proof.
  intros He. unfold slice0. destruct (Z.ltb_spec e 0); [lia|].
  rewrite length_take. lia.
Qed.

Lemma slice0_zero {A} (l : list A) : slice0 l 0 = [].
Proof.
  apply nil_length_inv. pose proof (slice0_length l 0). lia.
Qed.

Lemma slice0_take {A} (l : list A) (e : Z) :
  (0 ≤ e ≤ Z.of_nat (length l))%Z → slice0 l e = take (Z.to_nat e) l.
Proof.
  intros He. unfold slice0. destruct (Z.ltb_spec e 0); [lia|].
  f_equal. lia.
Qed.

Lemma filter_all {A} (p : A → bool) (l : list A) :
  Forall (fun x => p x = true) l → List.filter p l = l.
Proof. induction 1 as [|x l Hx _ IH]; simpl; [done|]. by rewrite Hx, IH. Qed.

(** One selection: what reaches the queue. *)
Lemma select_files_appends maxFiles files c :
  ∃ added,
    fileQueue (select_files toLowerCase random_id maxFiles files c)
    = (fileQueue c ++ added)%list
    ∧ map item_file added =
        if (Z.of_nat (length files) >? 1)%Z && (maxFiles >? 1)%Z
        then List.filter accepts
               (slice0 files (maxFiles - Z.of_nat (length (fileQueue c))))
        else [].
Proof.
  unfold select_files. destruct (_ && _).
  - match goal with |- context [add_all ?c0 ?l] =>
      destruct (add_all_appends l c0) as (added & Hq & Hf & _);
      assert (Hc0 : fileQueue c0 = fileQueue c) by (by destruct (_ >? _)%Z)
    end.
    exists added. by rewrite Hq, Hc0.
  - exists []. rewrite app_nil_r. split; [|done].
    destruct files as [|f ?]; [done|].
    unfold UploadQueue.handleFileSelect.
    by destruct (negb _); [|destruct (_ >? _)%Z].
Qed.

(** Dropping files queues what selecting them queues. *)
Lemma drop_files_queue maxFiles files c :
  fileQueue (drop_files toLowerCase random_id maxFiles files c)
  = fileQueue (select_files toLowerCase random_id maxFiles files c)
  ∧ selectedFile (drop_files toLowerCase random_id maxFiles files c)
    = selectedFile (select_files toLowerCase random_id maxFiles files c).
Proof.
  unfold drop_files, select_files. destruct (_ && _); [|done].
  match goal with |- context [add_all (if ?b then _ else _) ?l] =>
    destruct b end; [|done].
  split.
  - by apply add_all_same_queue.
  - generalize (slice0 files (maxFiles - Z.of_nat (length (fileQueue c)))).
    intros l. assert (H : ∀ c1 c2, selectedFile c1 = selectedFile c2 →
      selectedFile (add_all c1 l) = selectedFile (add_all c2 l)).
    { induction l as [|x l IH]; intros c1 c2 Hs; simpl; [done|].
      apply IH. unfold UploadQueue.addToQueue.
      by destruct (negb _); [|destruct (_ >? _)%Z]. }
    by apply H.
Qed.

Lemma select_files_bound maxFiles files c :
  (Z.of_nat (length (fileQueue c)) ≤ maxFiles →
   Z.of_nat (length (fileQueue
              (select_files toLowerCase random_id maxFiles files c)))
   ≤ maxFiles)%Z.
Proof.
  intros Hc. destruct (select_files_appends maxFiles files c) as (added & -> & Hf).
  rewrite length_app. apply (f_equal length) in Hf. rewrite length_map in Hf.
  destruct (_ && _); simpl in Hf; [|lia].
  pose proof (List.filter_length_le accepts
    (slice0 files (maxFiles - Z.of_nat (length (fileQueue c))))) as H1.
  pose proof (slice0_length files
    (maxFiles - Z.of_nat (length (fileQueue c)))%Z) as H2.
  lia.
Qed.

(** C4, as the code has it. Under one plan, whose capacity is at
    least 1, and from a queue within capacity:
    - the queue never grows beyond the capacity and what was queued
      stays queued, in place;
    - a selection reaches the queue only when it has several files
      and the capacity is above 1: its first (capacity - length)
      files are the candidates, each checked on its own and
      appended if it passes; the rest of the selection is dropped;
    - at capacity nothing is appended;
    - with capacity above 1, capacity + 1 valid files selected
      together on an empty queue queue exactly the first capacity
      of them;
    - with capacity 1 the queue is never used. *)
Theorem select_files_respects_capacity (plan_tier : option string)
    (batches : list (list file)) (c : client) :
  let cap := maxFiles_of (plan_of toLowerCase plan_tier) in
  let select := on_change toLowerCase random_id plan_tier in
  (Z.of_nat (length (fileQueue c)) ≤ cap)%Z →
  (1 ≤ cap)%Z
  ∧ (Z.of_nat (length (fileQueue
       (on_changes toLowerCase random_id plan_tier batches c))) ≤ cap)%Z
  ∧ (∃ added, fileQueue (on_changes toLowerCase random_id plan_tier batches c)
              = (fileQueue c ++ added)%list)
  ∧ (∀ files, ∃ added,
       fileQueue (select files c) = (fileQueue c ++ added)%list
       ∧ map item_file added =
           if (Z.of_nat (length files) >? 1)%Z && (cap >? 1)%Z
           then List.filter accepts
                  (slice0 files (cap - Z.of_nat (length (fileQueue c))))
           else [])
  ∧ (Z.of_nat (length (fileQueue c)) = cap →
     ∀ files, fileQueue (select files c) = fileQueue c)
  ∧ ((1 < cap)%Z → fileQueue c = [] →
     ∀ files, Z.of_nat (length files) = (cap + 1)%Z →
       Forall (fun f => accepts f = true) files →
       map item_file (fileQueue (select files c)) = take (Z.to_nat cap) files)
  ∧ (cap = 1%Z → ∀ files, fileQueue (select files c) = fileQueue c)
  ∧ (∀ f rest, cap = 1%Z ∨ rest = [] →
       select (f :: rest) c = handleFileSelect f c).
Proof.
  intros cap select Hc.
  assert (Hone : ∀ files, ∃ added,
       fileQueue (select files c) = (fileQueue c ++ added)%list
       ∧ map item_file added =
           if (Z.of_nat (length files) >? 1)%Z && (cap >? 1)%Z
           then List.filter accepts
                  (slice0 files (cap - Z.of_nat (length (fileQueue c))))
           else []) by (intros files; apply select_files_appends).
  split; [apply maxFiles_of_pos|]. split; [|split; [|split; [done|]]].
  - clear Hone. revert c Hc.
    induction batches as [|files batches IH]; intros c Hc; simpl; [done|].
    apply IH. by apply select_files_bound.
  - clear Hc Hone. revert c. induction batches as [|files batches IH]; intros c; simpl.
    + exists []. by rewrite app_nil_r.
    + destruct (IH (on_change toLowerCase random_id plan_tier files c))
        as [added2 ->].
      destruct (select_files_appends cap files c) as (added1 & Hq & _).
      unfold on_change. fold cap. rewrite Hq, <- app_assoc. eauto.
  - split; [|split; [|split]].
    + intros Hfull files. destruct (Hone files) as (added & -> & Hf).
      rewrite Hfull, Z.sub_diag, slice0_zero in Hf.
      destruct (_ && _); simpl in Hf;
        apply fmap_nil_inv in Hf as ->; by rewrite app_nil_r.
    + intros Hcap Hempty files Hlen Hall.
      destruct (Hone files) as (added & -> & Hf).
      rewrite Hempty in *. simpl in *. rewrite Hf.
      destruct (Z.gtb_spec (Z.of_nat (length files)) 1); [|lia].
      destruct (Z.gtb_spec cap 1); [|lia]. simpl.
      rewrite Z.sub_0_r, slice0_take by lia.
      apply filter_all. by apply Forall_take.
    + intros Hcap files. destruct (Hone files) as (added & -> & Hf).
      rewrite Hcap in Hf. rewrite andb_false_r in Hf.
      apply fmap_nil_inv in Hf as ->. by rewrite app_nil_r.
    + intros f rest Hsingle. unfold select, on_change, select_files. fold cap.
      destruct Hsingle as [-> | ->]; [by rewrite andb_false_r|done].
Qed.

End Client.

End UploadQueueFacts.

(** ** The upload queue on concrete inputs *)

Module UploadQueueExamples.
Import UploadQueue UploadQueueFacts Scenario.

Ltac not_listed :=
  let H := fresh in
  intros H;
  repeat (apply elem_of_cons in H as [H|H]; [discriminate H|]);
  by apply elem_of_nil in H.

(** Against C3 as stated: entries that are being uploaded, done or
    failed are removed like any other. *)
Lemma removeFromQueue_drops_entries_in_any_state :
  map item_status (fileQueue busy) = [Uploading; Done; Failed; Queued]
  ∧ fileQueue (removeFromQueue "a" busy) = [entry_b; entry_c; entry_d]
  ∧ fileQueue (removeFromQueue "b" busy) = [entry_a; entry_c; entry_d]
  ∧ fileQueue (removeFromQueue "c" busy) = [entry_a; entry_b; entry_d].
Proof. repeat split; reflexivity. Qed.

Lemma removeFromQueue_ignores_status_witness :
  item_status entry_a = Uploading
  ∧ fileQueue (removeFromQueue "a" busy) = [entry_b; entry_c; entry_d]
  ∧ S (length (fileQueue (removeFromQueue "a" busy))) = length (fileQueue busy)
  ∧ (∀ j, j ∉ map id (fileQueue busy) → removeFromQueue j busy = busy).
Proof.
  split; [reflexivity|].
  apply (removeFromQueue_ignores_status busy "a" [] [entry_b; entry_c; entry_d] entry_a).
  - reflexivity.
  - reflexivity.
  - apply not_elem_of_nil.
  - simpl. not_listed.
Defined.


Lemma size_limit_is_inclusive_witness :
  file_size clip_b = (500 * 1024 * 1024)%Z
  ∧ fileQueue (addToQueue lower rid clip_b initial_client)
    = [Item "id0" clip_b Queued None]
  ∧ selectedFile (handleFileSelect lower clip_b initial_client) = Some clip_b
  ∧ toasts (addToQueue lower rid too_big initial_client) = [Exceeds500MB "d.avi"].
Proof.
  assert (Hb : extension lower clip_b ∈ ["mp4"; "mov"; "avi"; "mkv"])
    by (change (extension lower clip_b) with "mov"; rewrite !elem_of_cons; auto).
  assert (Hd : extension lower too_big ∈ ["mp4"; "mov"; "avi"; "mkv"])
    by (change (extension lower too_big) with "avi"; rewrite !elem_of_cons; auto).
  destruct (size_limit_is_inclusive lower rid clip_b initial_client Hb)
    as (Heq & _ & _).
  destruct (size_limit_is_inclusive lower rid too_big initial_client Hd)
    as (_ & _ & Hgt).
  destruct (Heq eq_refl) as [-> ->].
  destruct (Hgt eq_refl) as [-> _].
  repeat split; reflexivity.
Defined.

(** Against C4 as stated: capacity 1 does not queue one file, it
    queues none (the first file goes to the single-file selection);
    and under capacity 5, files selected one at a time never reach the
    queue either. *)
Lemma free_plan_queues_nothing :
  maxFiles_of (plan_of lower (Some "free")) = 1%Z
  ∧ fileQueue (on_change lower rid (Some "free") [clip_a; clip_b] initial_client) = []
  ∧ selectedFile (on_change lower rid (Some "free") [clip_a; clip_b] initial_client)
    = Some clip_a
  ∧ maxFiles_of (plan_of lower (Some "starter")) = 5%Z
  ∧ fileQueue (on_changes lower rid (Some "starter")
                 [[clip_a]; [clip_b]; [clip_c]] initial_client) = [].
Proof. repeat split; vm_compute; reflexivity. Qed.

Lemma select_files_respects_capacity_witness :
  maxFiles_of (plan_of lower (Some "Starter")) = 5%Z
  ∧ (Z.of_nat (length (fileQueue
       (on_changes lower rid (Some "Starter")
          [[clip_a; notes]; six_clips; [clip_c; clip_b]] initial_client))) ≤ 5)%Z
  ∧ map item_file (fileQueue (on_change lower rid (Some "Starter") six_clips initial_client))
    = take 5 six_clips.
Proof.
  split; [vm_compute; reflexivity|].
  pose proof (select_files_respects_capacity lower rid (Some "Starter")
    [[clip_a; notes]; six_clips; [clip_c; clip_b]] initial_client) as H.
  cbv zeta in H.
  destruct H as (_ & Hbound & _ & _ & _ & Hexact & _ & _).
  { vm_compute. discriminate. }
  split; [exact Hbound|].
  apply Hexact.
  - vm_compute. reflexivity.
  - reflexivity.
  - vm_compute. reflexivity.
  - repeat constructor.
Defined.

End UploadQueueExamples.

(** ** The upload pipeline *)

Module PipelineFacts.
Import CredentialStore Gateway GatewayObs GatewayFacts UploadQueue Pipeline.

Section Run.
Variable net : nat -> reply.

Abbreviation resume := (resume net).
Abbreviation await_apiFetch := (await_apiFetch net).
Abbreviation iteration := (iteration net).
Abbreviation drain := (drain net).
Abbreviation processQueue := (processQueue net).

(** *** [await apiFetch] settles *)

Lemma resume_rank tid g k :
  (rank (pc_of tid g) ≤ 4 →
   rank (pc_of tid (resume tid (g, k)).1) ≤ Nat.pred (rank (pc_of tid g)))%nat.
Proof.
  intros Hr. unfold Pipeline.resume.
  destruct (pc_of tid g) as [[h|res h|res h rr|h|res|]|] eqn:Hp;
    cbn [fst]; try (rewrite Hp; simpl in *; lia).
  all: match goal with |- context [step ?g0 ?e] =>
         pose proof (step_advance g0 e tid) as Hs end;
       unfold addressed in Hs; rewrite Hp in Hs;
       destruct (decide _) as [_|Hne]; [|done];
       apply advance_rank in Hs; simpl in Hs; rewrite Hp in Hs;
       simpl in *; lia.
Qed.

Lemma resume_iter_rank tid n gk :
  (rank (pc_of tid gk.1) ≤ 4 →
   rank (pc_of tid (Nat.iter n (resume tid) gk).1)
   ≤ rank (pc_of tid gk.1) - n)%nat.
Proof.
  intros Hr. induction n as [|n IH]; simpl; [lia|].
  destruct (Nat.iter n (resume tid) gk) as [g k] eqn:E. simpl in IH.
  pose proof (resume_rank tid g k) as H. lia.
Qed.

Lemma pc_of_call path o g :
  pc_of (length (tasks g)) (step g (Call path o))
  = Some (AwaitFirst (initial_headers o (storage g))).
Proof.
  unfold pc_of; simpl. by rewrite list_lookup_middle.
Qed.

(** The call always returns or throws within four resumptions. *)
Lemma await_apiFetch_settles path o g k :
  rank (pc_of (length (tasks g)) (await_apiFetch path o (g, k)).1.1) = 0%nat.
Proof.
  unfold Pipeline.await_apiFetch. cbn [fst snd].
  pose proof (resume_iter_rank (length (tasks g)) 4
                (step g (Call path o), k)) as H.
  cbn [fst] in H. rewrite pc_of_call in H. cbn [rank] in H.
  specialize (H ltac:(lia)). lia.
Qed.

(** *** One iteration *)

Lemma iteration_shape d p dn i :
  let o := (await_apiFetch (split_path d) (Options ∅ true)
              (gw p, consumed p)).2 in
  let p' := (iteration d (p, dn) i).1 in
  fileQueue (cl p') = alter (finalize o) i (fileQueue (cl p))
  ∧ ∃ r1 r2 dn',
      trace p' =
      (trace p ++
       [StatusSet i Uploading; Render r1; TransportBegin i;
        TransportEnd i o; StatusSet i (verdict o).1;
        Progress dn' (length (fileQueue (cl p))); Render r2; Delay 500])%list.
Proof.
  unfold Pipeline.iteration. cbn [fst snd gw consumed cl renderQueue mark report
    with_client trace].
  destruct (await_apiFetch _ _ _) as [[g k] o] eqn:E. cbn [snd].
  destruct (verdict o) as [st data] eqn:Hv.
  assert (Hq : ∀ (q : list item) (f : item → item),
            (∀ x, f x = finalize o x) →
            alter f i q = alter (finalize o) i q).
  { intros q f Hf. by apply list_alter_ext. }
  destruct data as [d0|]; cbn; split.
  - unfold set_result, set_status. rewrite !list_alter_alter_eq.
    apply Hq. intros x. unfold finalize, compose. by rewrite Hv.
  - rewrite <- !app_assoc. simpl. unfold set_result, set_status.
    rewrite !length_alter. by do 3 eexists.
  - unfold set_status. rewrite !list_alter_alter_eq.
    apply Hq. intros x. unfold finalize, compose. by rewrite Hv.
  - rewrite <- !app_assoc. simpl. unfold set_status.
    rewrite !length_alter. by do 3 eexists.
Qed.

(** *** The loop *)

Lemma precedes_block i o r1 r2 dn n st :
  terminal st →
  StronglySorted precedes
    [StatusSet i Uploading; Render r1; TransportBegin i;
     TransportEnd i o; StatusSet i st; Progress dn n; Render r2; Delay 500].
Proof.
  intros [-> | ->]; repeat (constructor; [repeat constructor; simpl; lia|]);
    constructor.
Qed.

Lemma verdict_terminal o : terminal (verdict o).1.
Proof.
  unfold terminal, verdict. destruct o as [res|]; [|by right].
  destruct (ok res); [|by right]. destruct (body res); simpl; auto.
Qed.

(** After [m] iterations: the first [m] items are final, each with
    the outcome of its own transport; the others are untouched; the
    reports are in order and concern the first [m] items only. *)
Lemma drain_steps d p0 m :
  (m ≤ length (fileQueue (cl p0)))%nat →
  ∃ tr outcomes,
    let p := (foldl (iteration d)
                (report [Progress 0 (length (fileQueue (cl p0)))] p0, 0%nat)
                (seq 0 m)).1 in
    length outcomes = m
    ∧ trace p = (trace p0 ++ tr)%list
    ∧ length (fileQueue (cl p)) = length (fileQueue (cl p0))
    ∧ (∀ j, (m ≤ j)%nat → fileQueue (cl p) !! j = fileQueue (cl p0) !! j)
    ∧ (∀ j o it0, outcomes !! j = Some o →
         fileQueue (cl p0) !! j = Some it0 →
         fileQueue (cl p) !! j = Some (finalize o it0))
    ∧ (∀ j o, outcomes !! j = Some o →
         StatusSet j Uploading ∈ tr ∧ TransportBegin j ∈ tr
         ∧ TransportEnd j o ∈ tr ∧ StatusSet j (verdict o).1 ∈ tr)
    ∧ StronglySorted precedes tr
    ∧ (∀ e i ph, e ∈ tr → stamp e = Some (i, ph) → (i < m)%nat).
Proof.
  induction m as [|m IH]; intros Hm.
  - exists [Progress 0 (length (fileQueue (cl p0)))], []. simpl.
    repeat split; try done.
    + repeat constructor.
    + intros e i ph ->%list_elem_of_singleton. done.
  - destruct IH as (tr & outcomes & IH); [lia|].
    rewrite seq_S, foldl_app. simpl.
    destruct (foldl _ _ (seq 0 m)) as [pm dm] eqn:E. simpl in IH.
    destruct IH as (Hlen & Htr & Hql & Hrest & Hfin & Hin & Hsort & Hst).
    destruct (iteration_shape d pm dm m) as (Hq & r1 & r2 & dn' & Ht).
    set (o := (await_apiFetch (split_path d) (Options ∅ true)
                 (gw pm, consumed pm)).2) in *.
    exists (tr ++ [StatusSet m Uploading; Render r1; TransportBegin m;
                   TransportEnd m o; StatusSet m (verdict o).1;
                   Progress dn' (length (fileQueue (cl pm))); Render r2;
                   Delay 500])%list, (outcomes ++ [o])%list.
    cbv zeta. rewrite Hq, Ht, Htr, length_alter, length_app, Hlen, app_assoc.
    split; [simpl; lia|]. split; [done|]. split; [done|].
    split; [|split; [|split; [|split]]].
    + intros j Hj. rewrite list_lookup_alter_ne by lia. apply Hrest. lia.
    + intros j o' it0 Ho Hit.
      apply lookup_app_Some in Ho as [Ho|[Hge Ho]].
      * pose proof (lookup_lt_Some _ _ _ Ho) as Hlt.
        rewrite list_lookup_alter_ne by lia. eauto.
      * rewrite Hlen in *. destruct (j - m)%nat as [|?] eqn:Ej; [|done].
        injection Ho as <-. assert (j = m) as -> by lia.
        rewrite list_lookup_alter_eq, Hrest, Hit by lia. done.
    + intros j o' Ho. rewrite !elem_of_app.
      apply lookup_app_Some in Ho as [Ho|[Hge Ho]].
      * destruct (Hin j o' Ho) as (H1 & H2 & H3 & H4). auto.
      * rewrite Hlen in *. destruct (j - m)%nat as [|?] eqn:Ej; [|done].
        injection Ho as <-. assert (j = m) as -> by lia.
        rewrite !elem_of_cons. auto 10.
    + apply StronglySorted_app_2; [|done|apply precedes_block, verdict_terminal].
      intros x y Hx Hy. unfold precedes.
      destruct (stamp x) as [[i a]|] eqn:Ex; [|done].
      specialize (Hst x i a Hx Ex).
      destruct (verdict_terminal o) as [Hv|Hv]; rewrite Hv in Hy;
        repeat (apply elem_of_cons in Hy as [->|Hy]; [simpl; try done; lia|]);
        by apply elem_of_nil in Hy.
    + intros e i ph He Hs.
      apply elem_of_app in He as [He|He]; [specialize (Hst e i ph He Hs); lia|].
      destruct (verdict_terminal o) as [Hv|Hv]; rewrite Hv in He;
        repeat (apply elem_of_cons in He as [->|He];
                [simpl in Hs; try done; injection Hs as <- _; lia|]);
        by apply elem_of_nil in He.
Qed.

Lemma conclude_keeps p :
  fileQueue (cl (conclude p).1) = fileQueue (cl p)
  ∧ trace (conclude p).1 = trace p
  ∧ gw (conclude p).1 = gw p.
Proof.
  unfold conclude. destruct (find_done _) as [it|]; [|done].
  by destruct (result it) as [[|fields]|].
Qed.

(** A whole run, seen from outside: one outcome per item, in order. *)
Lemma processQueue_steps d p :
  ∃ tr outcomes,
    let p' := (processQueue d p).1 in
    let n := length (fileQueue (cl p)) in
    length outcomes = n
    ∧ trace p' = (trace p ++ tr)%list
    ∧ length (fileQueue (cl p')) = n
    ∧ (∀ j o it0, outcomes !! j = Some o →
         fileQueue (cl p) !! j = Some it0 →
         fileQueue (cl p') !! j = Some (finalize o it0))
    ∧ (∀ j o, outcomes !! j = Some o →
         StatusSet j Uploading ∈ tr ∧ TransportBegin j ∈ tr
         ∧ TransportEnd j o ∈ tr ∧ StatusSet j (verdict o).1 ∈ tr)
    ∧ StronglySorted precedes tr
    ∧ (∀ e i ph, e ∈ tr → stamp e = Some (i, ph) → (i < n)%nat).
Proof.
  unfold Pipeline.processQueue.
  destruct (fileQueue (cl p)) as [|it0 q0] eqn:Hq0.
  - exists [], []. simpl. rewrite app_nil_r, Hq0.
    repeat split; try done; try constructor.
    intros e i ph He. by apply elem_of_nil in He.
  - destruct (drain_steps d p (length (fileQueue (cl p))))
      as (tr & outcomes & H); [lia|].
    exists tr, outcomes. cbv zeta in *.
    destruct (conclude_keeps (drain d p).1) as (-> & -> & _).
    unfold Pipeline.drain. rewrite <- Hq0.
    destruct H as (H1 & H2 & H3 & _ & H5 & H6 & H7 & H8).
    repeat split; try done; by apply (H6 j o).
Qed.

Lemma reported_app p p' tr :
  trace p' = (trace p ++ tr)%list → reported p p' = tr.
Proof. intros H. unfold reported. by rewrite H, drop_app_length. Qed.

(** *** Order of the reports *)

Lemma sorted_lookup {A} (R : relation A) l a b x y :
  StronglySorted R l → (a < b)%nat →
  l !! a = Some x → l !! b = Some y → R x y.
Proof.
  intros Hs. revert a b. induction Hs as [|z l Hs IH Hz]; intros a b Hab Ha Hb.
  - by rewrite lookup_nil in Ha.
  - destruct b as [|b]; [lia|]. destruct a as [|a]; simpl in *.
    + injection Ha as ->. rewrite Forall_lookup in Hz. eauto.
    + apply (IH a b); [lia|done..].
Qed.

Lemma earlier {A} (R : relation A) l a b x y :
  StronglySorted R l → l !! a = Some x → l !! b = Some y →
  x ≠ y → ¬ R y x → (a < b)%nat.
Proof.
  intros Hs Ha Hb Hne Hn.
  destruct (lt_eq_lt_dec a b) as [[?| ->]|Hlt]; [done|congruence|].
  destruct Hn. by apply (sorted_lookup R l b a).
Qed.

Lemma finalize_failure o it0 :
  failure o →
  finalize o it0 = Item (id it0) (item_file it0) Failed (result it0).
Proof.
  unfold finalize, verdict, failure. destruct o as [res|]; [|done].
  intros [-> | Hb]; [done|]. rewrite Hb. by destruct (ok res).
Qed.

Lemma finalize_success res data it0 :
  ok res = true → body res = Some data →
  finalize (Fulfilled res) it0
  = Item (id it0) (item_file it0) Done (Some data).
Proof. unfold finalize, verdict. by intros -> ->. Qed.

Lemma finalize_done o it0 :
  item_status (finalize o it0) = Done →
  ∃ res data, o = Fulfilled res ∧ ok res = true ∧ body res = Some data
              ∧ result (finalize o it0) = Some data.
Proof.
  unfold finalize, verdict. destruct o as [res|]; [|done].
  destruct (ok res) eqn:Hok; [|done].
  destruct (body res) as [data|] eqn:Hb; [|done]. simpl.
  intros _. by exists res, data.
Qed.

Lemma find_done_first l1 it l2 :
  Forall (fun x => item_status x = Failed) l1 → item_status it = Done →
  find_done (l1 ++ it :: l2) = Some it.
Proof.
  unfold find_done. induction 1 as [|x l1 Hx _ IH]; intros Hd; simpl.
  - by rewrite Hd.
  - rewrite Hx. auto.
Qed.

Lemma find_done_none q :
  Forall (fun x => item_status x = Failed) q → find_done q = None.
Proof.
  unfold find_done. induction 1 as [|x l1 Hx _ IH]; simpl; [done|].
  by rewrite Hx.
Qed.

Local Ltac out_of_order :=
  unfold precedes; simpl;
  repeat match goal with
    | |- context [match ?st with Queued => _ | _ => _ end] => destruct st
    end; simpl; lia.


(** Every entry after a run is the entry that stood there before,
    finalized by the outcome of its own transport. *)
Lemma processQueue_entries d p j it :
  fileQueue (cl (processQueue d p).1) !! j = Some it →
  ∃ o it0, fileQueue (cl p) !! j = Some it0 ∧ it = finalize o it0.
Proof.
  intros Hj.
  destruct (processQueue_steps d p)
    as (tr & outcomes & Hlen & _ & Hql & Hfin & _ & _ & _).
  cbv zeta in *.
  destruct (lookup_lt_is_Some_2 (fileQueue (cl p)) j) as [it0 Hit0].
  { rewrite <- Hql. by apply lookup_lt_Some in Hj. }
  destruct (lookup_lt_is_Some_2 outcomes j) as [o Ho].
  { rewrite Hlen. by apply lookup_lt_Some in Hit0. }
  rewrite (Hfin j o it0 Ho Hit0) in Hj. injection Hj as <-. eauto.
Qed.

Lemma processQueue_conclude d p :
  fileQueue (cl p) ≠ [] →
  processQueue d p = conclude (drain d p).1
  ∧ fileQueue (cl (processQueue d p).1) = fileQueue (cl (drain d p).1).
Proof.
  intros Hne.
  assert (H : processQueue d p = conclude (drain d p).1).
  { unfold Pipeline.processQueue. by destruct (fileQueue (cl p)). }
  split; [done|]. rewrite H. apply conclude_keeps.
Qed.

Lemma find_done_status q it : find_done q = Some it → item_status it = Done.
Proof.
  unfold find_done. intros [_ H]%List.find_some. by destruct (item_status it).
Qed.

Lemma processQueue_raises d p :
  (processQueue d p).2 = Raised →
  ∃ it, find_done (fileQueue (cl (processQueue d p).1)) = Some it
        ∧ item_status it = Done ∧ result it = Some JNull.
Proof.
  intros Hr.
  destruct (decide (fileQueue (cl p) = [])) as [He|Hne].
  { unfold Pipeline.processQueue in Hr. by rewrite He in Hr. }
  destruct (processQueue_conclude d p Hne) as [Hpq Hq].
  rewrite Hpq in Hr. unfold conclude in Hr. rewrite <- Hq in Hr.
  destruct (find_done _) as [it|] eqn:Hfd; [|done].
  pose proof (find_done_status _ _ Hfd) as Hdone.
  exists it. split; [done|]. split; [done|].
  pose proof Hfd as [Hin _]%List.find_some.
  apply list_elem_of_In, list_elem_of_lookup_1 in Hin as [j Hj].
  destruct (processQueue_entries d p j it Hj) as (o & it0 & _ & ->).
  destruct (finalize_done o it0 Hdone) as (res & data & _ & _ & _ & Hres).
  rewrite Hres in *. by destruct data.
Qed.


Lemma processQueue_queue_facts d p :
  let q0 := fileQueue (cl p) in
  let q := fileQueue (cl (processQueue d p).1) in
  map id q = map id q0 ∧ map item_file q = map item_file q0
  ∧ Forall (fun it => terminal (item_status it)) q.
Proof.
  cbv zeta.
  destruct (processQueue_steps d p)
    as (tr & outcomes & _ & _ & Hql & _).
  cbv zeta in *.
  pose proof (processQueue_entries d p) as Hj.
  split; [|split].
  - apply list_eq. intros j. rewrite !list_lookup_fmap.
    destruct (fileQueue (cl (processQueue d p).1) !! j) as [it|] eqn:E.
    + destruct (Hj j it E) as (o & it0 & -> & ->). done.
    + apply lookup_ge_None in E. rewrite Hql in E.
      by rewrite (lookup_ge_None_2 (fileQueue (cl p)) j).
  - apply list_eq. intros j. rewrite !list_lookup_fmap.
    destruct (fileQueue (cl (processQueue d p).1) !! j) as [it|] eqn:E.
    + destruct (Hj j it E) as (o & it0 & -> & ->). done.
    + apply lookup_ge_None in E. rewrite Hql in E.
      by rewrite (lookup_ge_None_2 (fileQueue (cl p)) j).
  - apply Forall_lookup. intros j it E.
    destruct (Hj j it E) as (o & it0 & _ & ->). apply verdict_terminal.
Qed.

End Run.
End PipelineFacts.

(** ** The single-file path against the pipeline *)

Module SingleFileFacts.
Import CredentialStore Gateway GatewayObs GatewayFacts UploadQueue
  UploadQueueFacts Pipeline PipelineFacts.

Section Run.
Variable net : nat -> reply.
Variable toLowerCase : string -> string.
Variable random_id : nat -> string.

Lemma settle_first_passes g tid t h res :
  tasks g !! tid = Some t → t_pc t = AwaitFirst h → status res ≠ 401%Z →
  step g (Settle tid (Resp res)) = set_pc tid (Returned res) g.
Proof.
  intros Ht Hpc Hs. simpl. rewrite Ht, Hpc. unfold after_first.
  by destruct (Z.eqb_spec (status res) 401).
Qed.

(** A first response other than 401 is what [apiFetch] returns. *)
Lemma await_apiFetch_passes path o g k res :
  net k = Resp res → status res ≠ 401%Z →
  (await_apiFetch net path o (g, k)).2 = Fulfilled res.
Proof.
  intros Hk Hs. unfold await_apiFetch. cbn [fst snd].
  set (tid := length (tasks g)). set (g1 := step g (Call path o)).
  assert (Ht : tasks g1 !! tid
               = Some (Task path o (AwaitFirst (initial_headers o (storage g))))).
  { subst g1 tid. simpl. by rewrite list_lookup_middle. }
  assert (H1 : resume net tid (g1, k)
               = (set_pc tid (Returned res) g1, S k)).
  { unfold resume. cbv beta iota. subst g1 tid. rewrite pc_of_call.
    by rewrite Hk, (settle_first_passes _ _ _ _ res Ht eq_refl Hs). }
  assert (Hp : pc_of tid (set_pc tid (Returned res) g1) = Some (Returned res)).
  { unfold pc_of, set_pc. cbn [tasks]. by rewrite list_lookup_alter_eq, Ht. }
  assert (H2 : ∀ k', resume net tid (set_pc tid (Returned res) g1, k')
                     = (set_pc tid (Returned res) g1, k')).
  { intros k'. unfold resume. cbv beta iota. by rewrite Hp. }
  change (Nat.iter 4 (resume net tid) (g1, k))
    with (resume net tid (resume net tid (resume net tid
            (resume net tid (g1, k))))).
  rewrite H1, !H2. cbn [fst]. by rewrite Hp.
Qed.

Lemma ok_200 res : status res = 200%Z → ok res = true.
Proof. unfold ok. by intros ->. Qed.


End Run.

End SingleFileFacts.

(** ** The pipeline and the single-file path on concrete inputs *)

Module PipelineExamples.
Import CredentialStore Gateway GatewayObs UploadQueue Pipeline
  PipelineFacts SingleFileFacts Scenario.







End PipelineExamples.
